(** * Fixed-size sliding windows: the six LeetCode solutions, embedded and verified

    Each C++ method of the repository is translated into a Rocq function of the
    same name.  The conventions of the embedding are:

    - [int] is a [Z] kept in the 32-bit signed range by [wrap32], written out at
      every arithmetic operation of the source; [long long] uses [wrap64].
      Signed overflow is given its two's complement result.
    - [v[i]] is [index v i], which is [None] outside [0 .. size-1]; a function
      returns [None] exactly when it performs such an access.
    - [std::string] is a list of characters, [std::vector<int>] a list of [Z],
      [std::unordered_map<int,int>] a [gmap Z Z].
    - a [for] loop is [for_range]: the body is run for the trip count of the
      loop and may [Break].  The loop index is an [int], so the theorems take
      the size [n] of the sequence to be at most [INT_MAX].
    - [double] is the kernel's binary64 [float].

    The first part of the file holds the embedding and the brute-force
    definitions of the specification, the second the loop invariants, the
    third the properties of the specification. *)

From Stdlib Require Import ZArith Lia QArith Ascii String PrimFloat Uint63 FloatOps.
From stdpp Require Import base option list gmap strings.

Open Scope Z_scope.

(* ===================================================================== *)
(** ** Machine integers *)
(* ===================================================================== *)

Definition INT_MAX : Z := 2147483647.
Definition INT_MIN : Z := -2147483648.

(** Two's complement reduction to 32 and 64 bits. *)
Definition wrap32 (z : Z) : Z := (z + 2 ^ 31) mod 2 ^ 32 - 2 ^ 31.
Definition wrap64 (z : Z) : Z := (z + 2 ^ 63) mod 2 ^ 64 - 2 ^ 63.

Definition is_int (z : Z) : Prop := INT_MIN ≤ z ≤ INT_MAX.

#[global] Instance is_int_dec (z : Z) : Decision (is_int z).
Proof. unfold is_int. apply _. Defined.

(** Conversion of an [int] to [size_t], as the usual arithmetic conversions do
    when an [int] is compared with a [size()]. *)
Definition to_size_t (z : Z) : Z := z mod 2 ^ 64.

(* ===================================================================== *)
(** ** Containers and loops *)
(* ===================================================================== *)

(** [v.size()] *)
Definition vsize {A} (v : list A) : Z := Z.of_nat (length v).

(** [v[i]]: [None] when [i] is out of bounds. *)
Definition index {A} (v : list A) (i : Z) : option A :=
  if i <? 0 then None else v !! Z.to_nat i.

Inductive ctl (St : Type) : Type :=
| Next (st : St)
| Break (st : St).
Arguments Next {St} st.
Arguments Break {St} st.

(** [for (int i = lo; ...; i++) body], run for [n] iterations from [i]; an
    out-of-bounds access in the body ends the run with [None]. *)
Fixpoint for_range {St} (body : Z → St → option (ctl St))
    (i : Z) (n : nat) (st : St) : option St :=
  match n with
  | O => Some st
  | S t =>
      match body i st with
      | None => None
      | Some (Next st') => for_range body (i + 1) t st'
      | Some (Break st') => Some st'
      end
  end.

(** Trip count of [for (i = lo; i < hi; i++)]. *)
Definition trips (lo hi : Z) : nat := Z.to_nat (hi - lo).

(** [std::reduce(v.begin() + lo, v.begin() + hi)] on a vector of [int]. *)
Definition reduce (v : list Z) (lo hi : Z) : option Z :=
  for_range (λ i acc, x ← index v i; Some (Next (wrap32 (acc + x))))
            lo (trips lo hi) 0.

(* ===================================================================== *)
(** ** Brute-force vocabulary: windows and their aggregates *)
(* ===================================================================== *)

Definition sumZ (l : list Z) : Z := foldr Z.add 0 l.

(** The first [c] windows of length [k], left to right. *)
Definition windows_upto {A} (k : nat) (l : list A) (c : nat) : list (list A) :=
  (λ j, take k (drop j l)) <$> seq 0 c.

(** All [n - k + 1] contiguous windows of length [k]. *)
Definition windows {A} (k : nat) (l : list A) : list (list A) :=
  windows_upto k l (length l + 1 - k).

(** Maximum and minimum of a list, [0] on the empty list. *)
Definition maximum (l : list Z) : Z :=
  match l with [] => 0 | x :: r => fold_left Z.max r x end.
Definition minimum (l : list Z) : Z :=
  match l with [] => 0 | x :: r => fold_left Z.min r x end.

(** Sum of a window recomputed from scratch in [int] and [long long]
    arithmetic. *)
Definition sum32 (w : list Z) : Z := fold_left (λ a x, wrap32 (a + x)) w 0.
Definition sum64 (w : list Z) : Z := fold_left (λ a x, wrap64 (a + x)) w 0.

(** Number of elements of a window that satisfy [p]. *)
Definition count_if {A} (p : A → bool) (w : list A) : Z :=
  Z.of_nat (length (List.filter p w)).

(** [true] when the elements of the window are pairwise distinct. *)
Definition distinct (w : list Z) : bool := bool_decide (NoDup w).

(** Arithmetic mean of a non-empty window, as a rational. *)
Definition mean (w : list Z) : Q := Qmake (sumZ w) (Pos.of_nat (length w)).

(* ===================================================================== *)
(** ** 1456. maxVowels *)
(* ===================================================================== *)

Definition is_vowel (c : ascii) : bool :=
  Ascii.eqb c "a" || Ascii.eqb c "e" || Ascii.eqb c "i" || Ascii.eqb c "o"
  || Ascii.eqb c "u".

Record mv_state := MvState { mv_ans : Z; mv_yuanyin : Z }.

Definition maxVowels_body (s : list ascii) (k : Z)
    (i : Z) (st : mv_state) : option (ctl mv_state) :=
  c ← index s i;
  let yuanyin := if is_vowel c then wrap32 (mv_yuanyin st + 1) else mv_yuanyin st in
  let left := wrap32 (wrap32 (i - k) + 1) in
  if left <? 0 then Some (Next (MvState (mv_ans st) yuanyin))
  else
    let ans := Z.max (mv_ans st) yuanyin in
    if ans =? k then Some (Break (MvState ans yuanyin))
    else
      cl ← index s left;
      Some (Next (MvState ans (if is_vowel cl then wrap32 (yuanyin - 1) else yuanyin))).

Definition maxVowels (s : list ascii) (k : Z) : option Z :=
  st ← for_range (maxVowels_body s k) 0 (trips 0 (vsize s)) (MvState 0 0);
  Some (mv_ans st).

(** Brute force: the vowels of every window counted on their own. *)
Definition maxVowels_brute (s : list ascii) (k : Z) : Z :=
  maximum (count_if is_vowel <$> windows (Z.to_nat k) s).

(* ===================================================================== *)
(** ** 2379. minimumRecolors (the file exists in two directories) *)
(* ===================================================================== *)

Record mr_state := MrState { mr_ans : Z; mr_cntW : Z }.

Definition is_W (c : ascii) : bool := Ascii.eqb c "W".

(** Copy under [1-定长滑动窗口]. *)
Module Dir1.
Definition minimumRecolors (blocks : list ascii) (k : Z) : option Z :=
  let n := wrap32 (vsize blocks) in
  cntW ← for_range
    (λ i cntW,
       c ← index blocks i;
       Some (Next (if is_W c then wrap32 (cntW + 1) else cntW)))
    0 (trips 0 k) 0;
  st ← for_range
    (λ r st,
       c ← index blocks r;
       let cntW := if is_W c then wrap32 (mr_cntW st + 1) else mr_cntW st in
       c' ← index blocks (wrap32 (r - k));
       let cntW := if is_W c' then wrap32 (cntW - 1) else cntW in
       Some (Next (MrState (Z.min (mr_ans st) cntW) cntW)))
    k (trips k n) (MrState cntW cntW);
  Some (mr_ans st).
End Dir1.

(** Copy under [一、定长滑动窗口]. *)
Module DirI.
Definition minimumRecolors (blocks : list ascii) (k : Z) : option Z :=
  let n := wrap32 (vsize blocks) in
  cntW ← for_range
    (λ i cntW,
       c ← index blocks i;
       Some (Next (if is_W c then wrap32 (cntW + 1) else cntW)))
    0 (trips 0 k) 0;
  st ← for_range
    (λ r st,
       c ← index blocks r;
       let cntW := if is_W c then wrap32 (mr_cntW st + 1) else mr_cntW st in
       c' ← index blocks (wrap32 (r - k));
       let cntW := if is_W c' then wrap32 (cntW - 1) else cntW in
       Some (Next (MrState (Z.min (mr_ans st) cntW) cntW)))
    k (trips k n) (MrState cntW cntW);
  Some (mr_ans st).
End DirI.

Definition is_B (c : ascii) : bool := Ascii.eqb c "B".

(** The recolouring count of the specification: characters other than ['B']. *)
Definition minimumRecolors_spec (blocks : list ascii) (k : Z) : Z :=
  minimum (count_if (λ c, negb (is_B c)) <$> windows (Z.to_nat k) blocks).

(* ===================================================================== *)
(** ** 1343. numOfSubarrays *)
(* ===================================================================== *)

Record nos_state := NosState { nos_ans : Z; nos_s : Z }.

Definition numOfSubarrays_body (arr : list Z) (k threshold : Z)
    (i : Z) (st : nos_state) : option (ctl nos_state) :=
  x ← index arr i;
  let s := wrap32 (nos_s st + x) in
  if i <? wrap32 (k - 1) then Some (Next (NosState (nos_ans st) s))
  else
    let ans :=
      wrap32 (nos_ans st + (if wrap32 (k * threshold) <=? s then 1 else 0)) in
    y ← index arr (wrap32 (wrap32 (i - k) + 1));
    Some (Next (NosState ans (wrap32 (s - y)))).

Definition numOfSubarrays (arr : list Z) (k threshold : Z) : option Z :=
  st ← for_range (numOfSubarrays_body arr k threshold)
                 0 (trips 0 (vsize arr)) (NosState 0 0);
  Some (nos_ans st).

(** Brute force: every window summed on its own, with the test of the code. *)
Definition numOfSubarrays_brute (arr : list Z) (k threshold : Z) : Z :=
  Z.of_nat (length (List.filter (λ w, wrap32 (k * threshold) <=? sum32 w)
                                (windows (Z.to_nat k) arr))).

(** The count of the specification: windows whose mean is at least
    [threshold]. *)
Definition numOfSubarrays_spec (arr : list Z) (k threshold : Z) : Z :=
  Z.of_nat (length (List.filter (λ w, Qle_bool (inject_Z threshold) (mean w))
                                (windows (Z.to_nat k) arr))).

(* ===================================================================== *)
(** ** 1423. maxScore *)
(* ===================================================================== *)

Record ms_state := MsState { ms_min_s : Z; ms_s : Z }.

Definition maxScore_body (cardPoints : list Z) (m : Z)
    (i : Z) (st : ms_state) : option (ctl ms_state) :=
  x ← index cardPoints i;
  y ← index cardPoints (wrap32 (i - m));
  let s := wrap32 (ms_s st + wrap32 (x - y)) in
  Some (Next (MsState (Z.min (ms_min_s st) s) s)).

Definition maxScore (cardPoints : list Z) (k : Z) : option Z :=
  let n := wrap32 (vsize cardPoints) in
  let m := wrap32 (n - k) in
  s ← reduce cardPoints 0 m;
  st ← for_range (maxScore_body cardPoints m) m (trips m n) (MsState s s);
  total ← reduce cardPoints 0 (vsize cardPoints);
  Some (wrap32 (total - ms_min_s st)).

(** Total of the cards taken when [j] come from the left end and [k - j] from
    the right end. *)
Definition ends_total (l : list Z) (k j : nat) : Z :=
  sumZ (take j l) + sumZ (drop (length l - (k - j)) l).

(** The best total over the [k + 1] ways of taking [k] cards from the ends. *)
Definition maxScore_spec (l : list Z) (k : Z) : Z :=
  maximum (ends_total l (Z.to_nat k) <$> seq 0 (Z.to_nat k + 1)).

(** The complement formulation: all cards minus the cheapest block of
    [n - k] consecutive cards. *)
Definition maxScore_complement (l : list Z) (k : Z) : Z :=
  sumZ l - minimum (sumZ <$> windows (length l - Z.to_nat k) l).

(* ===================================================================== *)
(** ** 2461. maximumSubarraySum *)
(* ===================================================================== *)

Record mss_state :=
  MssState { mss_ans : Z; mss_s : Z; mss_cnt : gmap Z Z }.

Definition maximumSubarraySum_body (nums : list Z) (k : Z)
    (i : Z) (st : mss_state) : option (ctl mss_state) :=
  x ← index nums i;
  let s := wrap64 (mss_s st + x) in
  (* cnt[nums[i]]++ *)
  let cnt := <[x := wrap32 (default 0 (mss_cnt st !! x) + 1)]> (mss_cnt st) in
  let left := wrap32 (wrap32 (i - k) + 1) in
  if left <? 0 then Some (Next (MssState (mss_ans st) s cnt))
  else
    let ans :=
      if Z.of_nat (size cnt) =? to_size_t k then Z.max (mss_ans st) s
      else mss_ans st in
    out ← index nums left;
    let s := wrap64 (s - out) in
    (* if (--cnt[out] == 0) cnt.erase(out) *)
    let c := wrap32 (default 0 (cnt !! out) - 1) in
    let cnt := <[out := c]> cnt in
    let cnt := if c =? 0 then delete out cnt else cnt in
    Some (Next (MssState ans s cnt)).

Definition maximumSubarraySum (nums : list Z) (k : Z) : option Z :=
  st ← for_range (maximumSubarraySum_body nums k)
                 0 (trips 0 (vsize nums)) (MssState 0 0 ∅);
  Some (mss_ans st).

(** The value of the specification: the largest sum of a window with pairwise
    distinct elements, [0] when there is none. *)
Definition maximumSubarraySum_spec (nums : list Z) (k : Z) : Z :=
  maximum (sumZ <$> List.filter distinct (windows (Z.to_nat k) nums)).

(** The same, every window summed on its own in [long long] arithmetic. *)
Definition maximumSubarraySum_brute (nums : list Z) (k : Z) : Z :=
  maximum (sum64 <$> List.filter distinct (windows (Z.to_nat k) nums)).

(* ===================================================================== *)
(** ** 643. findMaxAverage *)
(* ===================================================================== *)

(** [(double) z] for an [int] (every [int] is a [double], so this is exact). *)
Definition to_double (z : Z) : float :=
  if z <? 0 then PrimFloat.opp (PrimFloat.of_uint63 (Uint63.of_Z (- z)))
  else PrimFloat.of_uint63 (Uint63.of_Z z).

Record fma_state := FmaState { fma_max_s : Z; fma_s : Z }.

Definition findMaxAverage_body (nums : list Z) (k : Z)
    (i : Z) (st : fma_state) : option (ctl fma_state) :=
  x ← index nums i;
  let s := wrap32 (fma_s st + x) in
  if i <? wrap32 (k - 1) then Some (Next (FmaState (fma_max_s st) s))
  else
    let max_s := Z.max (fma_max_s st) s in
    y ← index nums (wrap32 (wrap32 (i - k) + 1));
    Some (Next (FmaState max_s (wrap32 (s - y)))).

(** The loop of [findMaxAverage]: the final [max_s]. *)
Definition findMaxAverage_max_s (nums : list Z) (k : Z) : option Z :=
  st ← for_range (findMaxAverage_body nums k)
                 0 (trips 0 (vsize nums)) (FmaState INT_MIN 0);
  Some (fma_max_s st).

Definition findMaxAverage (nums : list Z) (k : Z) : option float :=
  max_s ← findMaxAverage_max_s nums k;
  Some (PrimFloat.div (to_double max_s) (to_double k)).

(** The value of the specification: the largest window sum divided by [k] in
    double precision. *)
Definition findMaxAverage_spec (nums : list Z) (k : Z) : float :=
  PrimFloat.div (to_double (maximum (sumZ <$> windows (Z.to_nat k) nums)))
                (to_double k).

(* ===================================================================== *)
(** ** Quantities used by the loop invariants *)
(* ===================================================================== *)

(** Prefix sums: [psum l i] adds the first [i] elements. *)
Definition psum (l : list Z) (i : nat) : Z := sumZ (take i l).

(** Sum of the window of length [k] that starts at [j]. *)
Definition wsum (l : list Z) (k j : nat) : Z := psum l (j + k) - psum l j.

(** Start of the window that is open at the beginning of iteration [i]; it is
    also the number of windows completed so far. *)
Definition wstart (k i : nat) : nat := (i + 1 - k)%nat.

(** Indicator of a predicate as a number. *)
Definition ind {A} (p : A → bool) (x : A) : Z := if p x then 1 else 0.

(** Occurrences of [z] among the elements [a .. b-1] of [l]. *)
Definition occ (l : list Z) (z : Z) (a b : nat) : Z :=
  psum (ind (Z.eqb z) <$> l) b - psum (ind (Z.eqb z) <$> l) a.

(** The counting map holds exactly the elements [a .. b-1] of [l], each with
    its number of occurrences. *)
Definition counts (cnt : gmap Z Z) (l : list Z) (a b : nat) : Prop :=
  ∀ z, cnt !! z = if decide (occ l z a b = 0) then None else Some (occ l z a b).

(* ===================================================================== *)
(** ** Lemmas: machine integers *)
(* ===================================================================== *)

(** Linear arithmetic with the bounds of [int] unfolded. *)
Ltac int_lia := unfold is_int, INT_MIN, INT_MAX in *; lia.

Lemma wrap32_id z : is_int z → wrap32 z = z.
Proof.
  unfold is_int, INT_MIN, INT_MAX, wrap32. intros H.
  rewrite Z.mod_small; lia.
Qed.

Lemma wrap32_range z : is_int (wrap32 z).
Proof.
  unfold is_int, INT_MIN, INT_MAX, wrap32.
  pose proof (Z.mod_pos_bound (z + 2 ^ 31) (2 ^ 32)). lia.
Qed.

Lemma wrap32_add_l a b : wrap32 (wrap32 a + b) = wrap32 (a + b).
Proof.
  unfold wrap32.
  replace ((a + 2 ^ 31) mod 2 ^ 32 - 2 ^ 31 + b + 2 ^ 31)
    with ((a + 2 ^ 31) mod 2 ^ 32 + b) by lia.
  rewrite Zplus_mod_idemp_l. do 2 f_equal. lia.
Qed.

Lemma wrap32_add_r a b : wrap32 (a + wrap32 b) = wrap32 (a + b).
Proof. rewrite (Z.add_comm a), wrap32_add_l. f_equal. lia. Qed.

Lemma wrap32_sub_l a b : wrap32 (wrap32 a - b) = wrap32 (a - b).
Proof.
  replace (wrap32 a - b) with (wrap32 a + - b) by lia.
  by rewrite wrap32_add_l.
Qed.

Lemma wrap32_sub_r a b : wrap32 (a - wrap32 b) = wrap32 (a - b).
Proof.
  unfold wrap32. change (2 ^ 31) with 2147483648. change (2 ^ 32) with 4294967296.
  replace (a - ((b + 2147483648) mod 4294967296 - 2147483648) + 2147483648)
    with ((a + 4294967296) - (b + 2147483648) mod 4294967296) by lia.
  rewrite Zminus_mod_idemp_r. do 2 f_equal. lia.
Qed.

Lemma wrap64_id z : - 2 ^ 63 ≤ z < 2 ^ 63 → wrap64 z = z.
Proof. unfold wrap64. intros H. rewrite Z.mod_small; lia. Qed.

(* ===================================================================== *)
(** ** Lemmas: loops *)
(* ===================================================================== *)

(** Invariant rule for [for_range]: [Inv] is kept by every [Next], and every
    [Break] establishes [Q]. *)
Lemma for_range_inv {St} (Inv : nat → St → Prop) (Q : St → Prop)
    (body : Z → St → option (ctl St)) (n : nat) (lo : nat) (st : St) :
  Inv lo st →
  (∀ i st, (lo ≤ i < lo + n)%nat → Inv i st →
     ∃ c, body (Z.of_nat i) st = Some c ∧
          match c with Next st' => Inv (S i) st' | Break st' => Q st' end) →
  ∃ st', for_range body (Z.of_nat lo) n st = Some st' ∧ (Inv (lo + n)%nat st' ∨ Q st').
Proof.
  revert lo st. induction n as [|n IH]; intros lo st H0 Hstep; simpl.
  - exists st. split; [done|]. left. by rewrite Nat.add_0_r.
  - destruct (Hstep lo st) as (c & -> & Hc); [lia|done|].
    destruct c as [st'|st'].
    + replace (Z.of_nat lo + 1) with (Z.of_nat (S lo)) by lia.
      destruct (IH (S lo) st') as (st'' & -> & Hfin); [done| |].
      * intros i s Hi. apply Hstep. lia.
      * exists st''. split; [done|]. by replace (lo + S n)%nat with (S lo + n)%nat by lia.
    + exists st'. split; [done|]. by right.
Qed.

(** The same rule for loops that never [Break]. *)
Lemma for_range_inv_next {St} (Inv : nat → St → Prop)
    (body : Z → St → option (ctl St)) (n : nat) (lo : nat) (st : St) :
  Inv lo st →
  (∀ i st, (lo ≤ i < lo + n)%nat → Inv i st →
     ∃ st', body (Z.of_nat i) st = Some (Next st') ∧ Inv (S i) st') →
  ∃ st', for_range body (Z.of_nat lo) n st = Some st' ∧ Inv (lo + n)%nat st'.
Proof.
  intros H0 Hstep.
  destruct (for_range_inv Inv (λ _, False) body n lo st H0) as (st' & ? & [?|[]]).
  - intros i s Hi HI. destruct (Hstep i s Hi HI) as (st' & -> & ?). by exists (Next st').
  - by exists st'.
Qed.

Lemma index_Some {A} (v : list A) (i : nat) :
  (i < length v)%nat → ∃ x, index v (Z.of_nat i) = Some x ∧ v !! i = Some x.
Proof.
  intros Hi. destruct (lookup_lt_is_Some_2 v i Hi) as [x Hx].
  exists x. split; [|done]. unfold index.
  destruct (Z.ltb_spec (Z.of_nat i) 0); [lia|]. by rewrite Nat2Z.id.
Qed.

(* ===================================================================== *)
(** ** Lemmas: sums, prefix sums and windows *)
(* ===================================================================== *)

Lemma sumZ_app l1 l2 : sumZ (l1 ++ l2) = sumZ l1 + sumZ l2.
Proof. induction l1 as [|x l1 IH]; simpl; lia. Qed.

Lemma psum_0 l : psum l 0 = 0.
Proof. done. Qed.

Lemma psum_S l i x : l !! i = Some x → psum l (S i) = psum l i + x.
Proof.
  intros Hx. unfold psum. rewrite (take_S_r _ _ _ Hx), sumZ_app. simpl. lia.
Qed.

Lemma psum_all l i : (length l ≤ i)%nat → psum l i = sumZ l.
Proof. intros Hi. unfold psum. by rewrite take_ge. Qed.

Lemma sumZ_window l k j : sumZ (take k (drop j l)) = wsum l k j.
Proof.
  unfold wsum, psum.
  rewrite <- (take_take_drop l j k), sumZ_app. lia.
Qed.

Lemma sumZ_drop l j : sumZ (drop j l) = sumZ l - psum l j.
Proof.
  unfold psum. rewrite <- (take_drop j l) at 2. rewrite sumZ_app. lia.
Qed.

Lemma sum32_from w a : fold_left (λ a x, wrap32 (a + x)) w (wrap32 a) = wrap32 (a + sumZ w).
Proof.
  revert a. induction w as [|x w IH]; intros a; simpl.
  - by rewrite Z.add_0_r.
  - rewrite wrap32_add_l, IH. f_equal. lia.
Qed.

Lemma sum32_wrap w : sum32 w = wrap32 (sumZ w).
Proof. unfold sum32. change 0 with (wrap32 0) at 1. by rewrite sum32_from. Qed.

Lemma windows_upto_S {A} k (l : list A) c :
  windows_upto k l (S c) = windows_upto k l c ++ [take k (drop c l)].
Proof. unfold windows_upto. by rewrite seq_S, fmap_app. Qed.

Lemma windows_upto_length {A} k (l : list A) c : length (windows_upto k l c) = c.
Proof. unfold windows_upto. by rewrite length_fmap, length_seq. Qed.

Lemma maximum_snoc l y :
  maximum (l ++ [y]) = match l with [] => y | _ => Z.max (maximum l) y end.
Proof. destruct l as [|x l]; simpl; [done|]. by rewrite fold_left_app. Qed.

Lemma minimum_snoc l y :
  minimum (l ++ [y]) = match l with [] => y | _ => Z.min (minimum l) y end.
Proof. destruct l as [|x l]; simpl; [done|]. by rewrite fold_left_app. Qed.

Lemma count_filter_snoc {A} (p : A → bool) l y :
  Z.of_nat (length (List.filter p (l ++ [y])))
  = Z.of_nat (length (List.filter p l)) + (if p y then 1 else 0).
Proof.
  rewrite List.filter_app, length_app. simpl. destruct (p y); simpl; lia.
Qed.

Lemma count_filter_le {A} (p : A → bool) l :
  0 ≤ Z.of_nat (length (List.filter p l)) ≤ Z.of_nat (length l).
Proof. pose proof (List.filter_length_le p l). lia. Qed.

(** Index arithmetic of the loops, under the precondition on the sizes. *)
Lemma left_index k i :
  1 ≤ k → Z.of_nat i ≤ INT_MAX → k ≤ INT_MAX →
  wrap32 (wrap32 (Z.of_nat i - k) + 1) = Z.of_nat i - k + 1.
Proof.
  unfold INT_MAX. intros ???.
  rewrite (wrap32_id (Z.of_nat i - k)) by (unfold is_int, INT_MIN, INT_MAX; lia).
  apply wrap32_id. unfold is_int, INT_MIN, INT_MAX; lia.
Qed.

Lemma trips_0_vsize {A} (v : list A) : trips 0 (vsize v) = length v.
Proof. unfold trips, vsize. lia. Qed.

(* ===================================================================== *)
(** ** numOfSubarrays: the loop and the brute force agree *)
(* ===================================================================== *)

Lemma numOfSubarrays_refines arr k threshold :
  1 ≤ k ≤ vsize arr → vsize arr ≤ INT_MAX →
  numOfSubarrays arr k threshold = Some (numOfSubarrays_brute arr k threshold).
Proof.
  intros Hk Hn. unfold numOfSubarrays, numOfSubarrays_brute.
  rewrite trips_0_vsize. unfold vsize in *.
  set (kn := Z.to_nat k). set (T := wrap32 (k * threshold)).
  set (Inv := λ (i : nat) (st : nos_state),
    nos_s st = wrap32 (psum arr i - psum arr (wstart kn i)) ∧
    nos_ans st = Z.of_nat (length (List.filter (λ w, T <=? sum32 w)
                                     (windows_upto kn arr (wstart kn i))))).
  change 0 with (Z.of_nat 0) at 1.
  destruct (for_range_inv_next Inv (numOfSubarrays_body arr k threshold)
              (length arr) 0 (NosState 0 0)) as (st & -> & Hs & Ha).
  { unfold Inv. replace (wstart kn 0) with 0%nat by (unfold wstart; lia). by split. }
  { intros i [a s] [_ Hi] [Hs Ha]. simpl in *.
    destruct (index_Some arr i Hi) as (x & Hx & Hx').
    unfold numOfSubarrays_body. rewrite Hx. simpl.
    rewrite Hs, wrap32_add_l.
    replace (psum arr i - psum arr (wstart kn i) + x)
      with (psum arr (S i) - psum arr (wstart kn i)) by (rewrite (psum_S _ _ _ Hx'); lia).
    rewrite (wrap32_id (k - 1)) by int_lia.
    destruct (Z.ltb_spec (Z.of_nat i) (k - 1)) as [Hlt|Hge].
    - eexists. split; [done|]. unfold Inv. simpl.
      replace (wstart kn (S i)) with (wstart kn i) by (unfold wstart; lia).
      by rewrite Ha.
    - rewrite left_index by lia.
      assert (Hc : Z.of_nat i - k + 1 = Z.of_nat (wstart kn i)) by (unfold wstart; lia).
      rewrite Hc.
      destruct (index_Some arr (wstart kn i)) as (y & Hy & Hy'); [unfold wstart; lia|].
      rewrite Hy. simpl. eexists. split; [done|]. unfold Inv. simpl.
      replace (wstart kn (S i)) with (S (wstart kn i)) by (unfold wstart; lia).
      split.
      + rewrite wrap32_sub_l, (psum_S _ _ _ Hy'). f_equal. lia.
      + rewrite windows_upto_S, count_filter_snoc, <- Ha.
        rewrite sum32_wrap, sumZ_window. unfold wsum.
        replace (wstart kn i + kn)%nat with (S i) by (unfold wstart; lia).
        apply wrap32_id.
        pose proof (count_filter_le (λ w, T <=? sum32 w)
                      (windows_upto kn arr (wstart kn i))) as Hle.
        rewrite windows_upto_length, <- Ha in Hle.
        unfold is_int, INT_MIN, INT_MAX in *.
        destruct (T <=? _); unfold wstart in *; lia. }
  simpl. unfold windows. do 3 f_equal. rewrite Ha. simpl.
  replace (wstart kn (length arr)) with (length arr + 1 - kn)%nat by done.
  done.
Qed.

(* ===================================================================== *)
(** ** Lemmas: maxima, minima and counts *)
(* ===================================================================== *)

Lemma fold_max_ge r x :
  x ≤ fold_left Z.max r x ∧ ∀ y, y ∈ r → y ≤ fold_left Z.max r x.
Proof.
  revert x. induction r as [|z r IH]; intros x; simpl.
  - split; [lia|]. intros y Hy. by apply elem_of_nil in Hy.
  - destruct (IH (Z.max x z)) as [H1 H2]. split; [lia|].
    intros y [->|Hy]%elem_of_cons; [lia|by apply H2].
Qed.

Lemma fold_max_in r x : fold_left Z.max r x ∈ x :: r.
Proof.
  revert x. induction r as [|z r IH]; intros x; simpl.
  - apply list_elem_of_here.
  - specialize (IH (Z.max x z)).
    apply elem_of_cons in IH as [->|IH].
    + destruct (Z.max_spec x z) as [[_ ->]|[_ ->]].
      * apply list_elem_of_further, list_elem_of_here.
      * apply list_elem_of_here.
    + by do 2 apply list_elem_of_further.
Qed.

Lemma maximum_ge l y : y ∈ l → y ≤ maximum l.
Proof.
  destruct l as [|x r]; [by intros ?%elem_of_nil|].
  simpl. destruct (fold_max_ge r x) as [H1 H2].
  intros [->|Hy]%elem_of_cons; [done|by apply H2].
Qed.

Lemma maximum_in l : l ≠ [] → maximum l ∈ l.
Proof. destruct l as [|x r]; [done|]. intros _. apply fold_max_in. Qed.

Lemma maximum_unique l M : M ∈ l → (∀ y, y ∈ l → y ≤ M) → maximum l = M.
Proof.
  intros HM Hle. pose proof (maximum_ge l M HM).
  assert (l ≠ []) as Hne by (intros ->; by apply elem_of_nil in HM).
  pose proof (Hle _ (maximum_in l Hne)). lia.
Qed.

Lemma maximum_snoc_from0 l y :
  0 ≤ y → 0 ≤ maximum l → maximum (l ++ [y]) = Z.max (maximum l) y.
Proof.
  intros Hy Hl. rewrite maximum_snoc. destruct l; [|done].
  clear Hl. unfold maximum. lia.
Qed.

Lemma count_if_sum {A} (p : A → bool) w : count_if p w = sumZ (ind p <$> w).
Proof.
  induction w as [|x w IH]; [done|].
  rewrite fmap_cons.
  change (sumZ (ind p x :: (ind p <$> w))) with (ind p x + sumZ (ind p <$> w)).
  rewrite <- IH. unfold count_if, ind. simpl List.filter.
  destruct (p x); [simpl length|]; lia.
Qed.

Lemma count_if_range {A} (p : A → bool) w : 0 ≤ count_if p w ≤ Z.of_nat (length w).
Proof. apply count_filter_le. Qed.

Lemma count_if_window {A} (p : A → bool) (s : list A) k j :
  count_if p (take k (drop j s)) = wsum (ind p <$> s) k j.
Proof. by rewrite count_if_sum, fmap_take, fmap_drop, sumZ_window. Qed.

(** The count of a predicate over [d] consecutive elements lies in [0 .. d]. *)
Lemma psum_ind_range {A} (p : A → bool) (s : list A) a d :
  0 ≤ psum (ind p <$> s) (a + d) - psum (ind p <$> s) a ≤ Z.of_nat d.
Proof.
  change (0 ≤ wsum (ind p <$> s) d a ≤ Z.of_nat d).
  rewrite <- count_if_window.
  pose proof (count_if_range p (take d (drop a s))) as H.
  rewrite length_take in H. lia.
Qed.

Lemma windows_upto_app {A} k (l : list A) c d :
  windows_upto k l (c + d) =
  windows_upto k l c ++ ((λ j, take k (drop j l)) <$> seq c d).
Proof. unfold windows_upto. by rewrite seq_app, fmap_app. Qed.

(* ===================================================================== *)
(** ** maxVowels: the loop and the brute force agree *)
(* ===================================================================== *)

Lemma maxVowels_refines s k :
  1 ≤ k ≤ vsize s → vsize s ≤ INT_MAX →
  maxVowels s k = Some (maxVowels_brute s k).
Proof.
  intros Hk Hn. unfold maxVowels. rewrite trips_0_vsize. unfold vsize in *.
  set (kn := Z.to_nat k). set (vals := ind is_vowel <$> s).
  set (Inv := λ (i : nat) (st : mv_state),
    mv_yuanyin st = psum vals i - psum vals (wstart kn i) ∧
    mv_ans st = maximum (count_if is_vowel <$> windows_upto kn s (wstart kn i)) ∧
    0 ≤ mv_ans st).
  set (Q := λ st : mv_state, mv_ans st = maxVowels_brute s k).
  change 0 with (Z.of_nat 0) at 1.
  destruct (for_range_inv Inv Q (maxVowels_body s k) (length s) 0 (MvState 0 0))
    as (st & -> & Hfin).
  { unfold Inv. replace (wstart kn 0) with 0%nat by (unfold wstart; lia). by simpl. }
  { intros i [a y] [_ Hi] (Hy & Ha & Ha0). simpl in *.
    destruct (index_Some s i Hi) as (c0 & Hx & Hx').
    assert (vals !! i = Some (ind is_vowel c0)) as Hv
      by (unfold vals; by rewrite list_lookup_fmap, Hx').
    unfold maxVowels_body. rewrite Hx. simpl.
    pose proof (psum_ind_range is_vowel s (wstart kn i) (i - wstart kn i)) as Hr.
    replace (wstart kn i + (i - wstart kn i))%nat with i in Hr by (unfold wstart; lia).
    fold vals in Hr.
    assert ((if is_vowel c0 then wrap32 (y + 1) else y)
            = psum vals (S i) - psum vals (wstart kn i)) as ->.
    { rewrite (psum_S _ _ _ Hv). unfold ind. destruct (is_vowel c0); [|lia].
      rewrite wrap32_id; [lia|].
      unfold is_int, INT_MIN, INT_MAX, wstart in *. lia. }
    rewrite left_index by lia.
    destruct (Z.ltb_spec (Z.of_nat i - k + 1) 0) as [Hlt|Hge].
    - eexists. split; [done|]. unfold Inv. simpl.
      replace (wstart kn (S i)) with (wstart kn i) by (unfold wstart; lia).
      by split; [|split].
    - assert (Hc : Z.of_nat i - k + 1 = Z.of_nat (wstart kn i)) by (unfold wstart; lia).
      rewrite Hc.
      assert (Hw : psum vals (S i) - psum vals (wstart kn i)
                   = count_if is_vowel (take kn (drop (wstart kn i) s))).
      { rewrite count_if_window. unfold wsum. fold vals.
        by replace (wstart kn i + kn)%nat with (S i) by (unfold wstart; lia). }
      pose proof (count_if_range is_vowel (take kn (drop (wstart kn i) s))) as Hcr.
      assert (Hmax : Z.max a (psum vals (S i) - psum vals (wstart kn i))
                = maximum (count_if is_vowel <$> windows_upto kn s (S (wstart kn i)))).
      { rewrite windows_upto_S, fmap_app. simpl.
        rewrite maximum_snoc_from0; [by rewrite <- Ha, Hw|lia|by rewrite <- Ha]. }
      destruct (Z.eqb_spec (Z.max a (psum vals (S i) - psum vals (wstart kn i))) k)
        as [Heq|Hne].
      + eexists. split; [done|]. unfold Q, maxVowels_brute, windows. simpl.
        fold kn. rewrite Heq. symmetry.
        replace (length s + 1 - kn)%nat
          with (S (wstart kn i) + (length s - S i))%nat by (unfold wstart; lia).
        rewrite windows_upto_app, fmap_app.
        apply maximum_unique.
        * apply elem_of_app. left. rewrite <- Heq, Hmax. apply maximum_in.
          rewrite windows_upto_S, fmap_app. by intros [_ ?]%app_eq_nil.
        * rewrite <- fmap_app. intros v (w & -> & Hw')%list_elem_of_fmap.
          pose proof (count_if_range is_vowel w) as Hwr.
          assert (length w ≤ kn)%nat; [|lia].
          apply elem_of_app in Hw' as [Hw'|Hw'];
            apply list_elem_of_fmap in Hw' as (j & -> & _);
            rewrite length_take; lia.
      + destruct (index_Some s (wstart kn i)) as (cl & Hl & Hl'); [unfold wstart; lia|].
        rewrite Hl. simpl. eexists. split; [done|]. unfold Inv. simpl.
        replace (wstart kn (S i)) with (S (wstart kn i)) by (unfold wstart; lia).
        split; [|split; [done|lia]].
        assert (vals !! wstart kn i = Some (ind is_vowel cl)) as Hvl
          by (unfold vals; by rewrite list_lookup_fmap, Hl').
        rewrite (psum_S _ _ _ Hvl). unfold ind. destruct (is_vowel cl); [|lia].
        rewrite wrap32_id; [lia|].
        rewrite Hw. unfold is_int, INT_MIN, INT_MAX in *. rewrite length_take in Hcr. lia. }
  simpl. destruct Hfin as [(_ & Ha & _)|HQ]; [|by rewrite HQ].
  rewrite Ha. unfold maxVowels_brute, windows. fold kn.
  by replace (wstart kn (length s)) with (length s + 1 - kn)%nat by done.
Qed.

Lemma fmap_windows_upto_S {A B} (f : list A → B) k (l : list A) c :
  f <$> windows_upto k l (S c)
  = (f <$> windows_upto k l c) ++ [f (take k (drop c l))].
Proof. by rewrite windows_upto_S, fmap_app. Qed.

Lemma minimum_snoc_ne l y : l ≠ [] → minimum (l ++ [y]) = Z.min (minimum l) y.
Proof. intros Hl. rewrite minimum_snoc. by destruct l. Qed.

Lemma windows_upto_ne {A} k (l : list A) (f : list A → Z) c :
  (0 < c)%nat → f <$> windows_upto k l c ≠ [].
Proof.
  intros Hc E. apply (f_equal length) in E.
  rewrite length_fmap, windows_upto_length in E. simpl in E. lia.
Qed.

(** The aggregates of the windows, read off the prefix sums. *)
Lemma count_if_windows_upto {A} (p : A → bool) (s : list A) k c :
  count_if p <$> windows_upto k s c = wsum (ind p <$> s) k <$> seq 0 c.
Proof.
  unfold windows_upto. rewrite <- list_fmap_compose.
  apply list_fmap_ext. intros _ j _. simpl. apply count_if_window.
Qed.

Lemma sumZ_windows_upto (l : list Z) k c :
  sumZ <$> windows_upto k l c = wsum l k <$> seq 0 c.
Proof.
  unfold windows_upto. rewrite <- list_fmap_compose.
  apply list_fmap_ext. intros _ j _. simpl. apply sumZ_window.
Qed.

(* ===================================================================== *)
(** ** minimumRecolors: the two loops compute the least number of ['W'] *)
(* ===================================================================== *)

Lemma minimumRecolors_W blocks k :
  1 ≤ k ≤ vsize blocks → vsize blocks ≤ INT_MAX →
  Dir1.minimumRecolors blocks k
  = Some (minimum (count_if is_W <$> windows (Z.to_nat k) blocks)).
Proof.
  intros Hk Hn. unfold Dir1.minimumRecolors.
  rewrite (wrap32_id (vsize blocks)) by (unfold is_int, INT_MIN, INT_MAX, vsize in *; lia).
  unfold vsize in *.
  set (kn := Z.to_nat k). set (vals := ind is_W <$> blocks).
  (* first window *)
  replace (trips 0 k) with kn by (unfold trips, kn; lia).
  destruct (for_range_inv_next (λ (i : nat) (cntW : Z), cntW = psum vals i)
              (λ i cntW, c ← index blocks i;
                 Some (Next (if is_W c then wrap32 (cntW + 1) else cntW)))
              kn 0 0) as (cntW & E & HW); [| |change (Z.of_nat 0) with 0 in E; rewrite E; clear E].
  { done. }
  { intros i cntW [_ Hi] ->. simpl in Hi.
    destruct (index_Some blocks i) as (c & Hc & Hc'); [lia|].
    rewrite Hc. simpl. eexists. split; [done|].
    assert (vals !! i = Some (ind is_W c)) as Hv
      by (unfold vals; by rewrite list_lookup_fmap, Hc').
    rewrite (psum_S _ _ _ Hv). unfold ind. destruct (is_W c); [|lia].
    pose proof (psum_ind_range is_W blocks 0 i) as Hr. fold vals in Hr.
    rewrite psum_0 in Hr. simpl in Hr.
    apply wrap32_id. int_lia. }
  simpl in HW. simpl.
  (* sliding *)
  replace k with (Z.of_nat kn) at 1 by (unfold kn; lia).
  replace (trips k (Z.of_nat (length blocks))) with (length blocks - kn)%nat
    by (unfold trips, kn; lia).
  set (Inv := λ (r : nat) (st : mr_state),
    mr_cntW st = psum vals r - psum vals (r - kn) ∧
    mr_ans st = minimum (count_if is_W <$> windows_upto kn blocks (r - kn + 1))).
  match goal with |- context [for_range ?b _ _ _] => set (body := b) end.
  destruct (for_range_inv_next Inv body (length blocks - kn) kn (MrState cntW cntW))
    as (st & -> & _ & Ha).
  { unfold Inv. simpl. replace (kn - kn)%nat with 0%nat by lia.
    rewrite psum_0, Z.sub_0_r. split; [done|].
    change (windows_upto kn blocks (0 + 1)) with [take kn (drop 0 blocks)].
    simpl. rewrite count_if_window. unfold wsum. fold vals.
    rewrite psum_0. simpl. lia. }
  { intros r [a cnt] Hr [Hc Ha]. simpl in *.
    destruct (index_Some blocks r) as (c & Hx & Hx'); [lia|].
    unfold body. rewrite Hx. simpl.
    rewrite (wrap32_id (Z.of_nat r - k)) by int_lia.
    replace (Z.of_nat r - k) with (Z.of_nat (r - kn)) by (unfold kn; lia).
    destruct (index_Some blocks (r - kn)) as (c' & Hy & Hy'); [lia|].
    rewrite Hy. simpl. eexists. split; [done|].
    assert (vals !! r = Some (ind is_W c)) as Hv
      by (unfold vals; by rewrite list_lookup_fmap, Hx').
    assert (vals !! (r - kn)%nat = Some (ind is_W c')) as Hv'
      by (unfold vals; by rewrite list_lookup_fmap, Hy').
    pose proof (psum_ind_range is_W blocks (r - kn) kn) as Hb. fold vals in Hb.
    replace (r - kn + kn)%nat with r in Hb by lia.
    assert ((if is_W c then wrap32 (cnt + 1) else cnt)
            = psum vals (S r) - psum vals (r - kn)) as ->.
    { rewrite (psum_S _ _ _ Hv). unfold ind. destruct (is_W c); [|lia].
      rewrite wrap32_id; [lia|]. int_lia. }
    assert ((if is_W c' then wrap32 (psum vals (S r) - psum vals (r - kn) - 1)
             else psum vals (S r) - psum vals (r - kn))
            = psum vals (S r) - psum vals (S r - kn)) as ->.
    { replace (S r - kn)%nat with (S (r - kn)) by lia.
      rewrite (psum_S _ _ _ Hv'), (psum_S _ _ _ Hv). unfold ind.
      destruct (is_W c'); [|lia].
      rewrite wrap32_id; [lia|].
      unfold is_int, INT_MIN, INT_MAX, ind in *. destruct (is_W c); lia. }
    unfold Inv. simpl. split; [done|].
    replace (S r - kn + 1)%nat with (S (r - kn + 1)) by lia.
    rewrite fmap_windows_upto_S, minimum_snoc_ne by (apply windows_upto_ne; lia).
    rewrite <- Ha, count_if_window. unfold wsum. fold vals.
    replace (r - kn + 1 + kn)%nat with (S r) by lia.
    by replace (r - kn + 1)%nat with (S r - kn)%nat by lia. }
  simpl. rewrite Ha. unfold windows. fold kn. do 4 f_equal. lia.
Qed.

(* ===================================================================== *)
(** ** maxScore: the complement window *)
(* ===================================================================== *)

Lemma reduce_prefix v (m : nat) :
  (m ≤ length v)%nat → reduce v 0 (Z.of_nat m) = Some (wrap32 (psum v m)).
Proof.
  intros Hm. unfold reduce.
  replace (trips 0 (Z.of_nat m)) with m by (unfold trips; lia).
  destruct (for_range_inv_next (λ (i : nat) (acc : Z), acc = wrap32 (psum v i))
              (λ i acc, x ← index v i; Some (Next (wrap32 (acc + x)))) m 0 0)
    as (acc & E & ->); [done| |exact E].
  intros i acc Hi ->. destruct (index_Some v i) as (x & Hx & Hx'); [lia|].
  rewrite Hx. simpl. eexists. split; [done|].
  by rewrite wrap32_add_l, (psum_S _ _ _ Hx').
Qed.

(** What the code computes, with its 32-bit arithmetic left in place. *)
Lemma maxScore_wrapped l k :
  1 ≤ k ≤ vsize l → vsize l ≤ INT_MAX →
  maxScore l k
  = Some (wrap32 (sumZ l - minimum (sum32 <$> windows (length l - Z.to_nat k) l))).
Proof.
  intros Hk Hn. unfold maxScore.
  rewrite (wrap32_id (vsize l)) by (unfold is_int, INT_MIN, INT_MAX, vsize in *; lia).
  rewrite (wrap32_id (vsize l - k)) by (unfold is_int, INT_MIN, INT_MAX, vsize in *; lia).
  set (m := (length l - Z.to_nat k)%nat).
  assert (Hm : vsize l - k = Z.of_nat m) by (unfold vsize, m in *; lia).
  rewrite Hm, reduce_prefix by (unfold m; lia). simpl.
  unfold vsize in *. rewrite reduce_prefix, psum_all by lia. simpl.
  replace (trips (Z.of_nat m) (Z.of_nat (length l))) with (length l - m)%nat
    by (unfold trips; lia).
  set (Inv := λ (i : nat) (st : ms_state),
    ms_s st = wrap32 (psum l i - psum l (i - m)) ∧
    ms_min_s st = minimum (sum32 <$> windows_upto m l (i - m + 1))).
  destruct (for_range_inv_next Inv (maxScore_body l (Z.of_nat m)) (length l - m) m
              (MsState (wrap32 (psum l m)) (wrap32 (psum l m))))
    as (st & -> & _ & Ha).
  { unfold Inv. simpl. replace (m - m)%nat with 0%nat by lia.
    rewrite psum_0, Z.sub_0_r. split; [done|].
    change (windows_upto m l (0 + 1)) with [take m (drop 0 l)].
    simpl. rewrite sum32_wrap, sumZ_window. unfold wsum.
    rewrite psum_0. simpl. f_equal. lia. }
  { intros i [a s] Hi [Hs Ha]. simpl in *.
    destruct (index_Some l i) as (x & Hx & Hx'); [lia|].
    unfold maxScore_body. rewrite Hx. simpl.
    rewrite (wrap32_id (Z.of_nat i - Z.of_nat m))
      by int_lia.
    replace (Z.of_nat i - Z.of_nat m) with (Z.of_nat (i - m)) by lia.
    destruct (index_Some l (i - m)) as (y & Hy & Hy'); [lia|].
    rewrite Hy. simpl. eexists. split; [done|].
    assert (wrap32 (s + wrap32 (x - y)) = wrap32 (psum l (S i) - psum l (S i - m))) as ->.
    { rewrite wrap32_add_r, Hs, wrap32_add_l.
      replace (S i - m)%nat with (S (i - m)) by lia.
      rewrite (psum_S _ _ _ Hx'), (psum_S _ _ _ Hy'). f_equal. lia. }
    unfold Inv. simpl. split; [done|].
    replace (S i - m + 1)%nat with (S (i - m + 1)) by lia.
    rewrite fmap_windows_upto_S, minimum_snoc_ne by (apply windows_upto_ne; lia).
    rewrite <- Ha, sum32_wrap, sumZ_window. unfold wsum.
    replace (i - m + 1 + m)%nat with (S i) by lia.
    by replace (i - m + 1)%nat with (S i - m)%nat by lia. }
  simpl. rewrite wrap32_sub_l, Ha. unfold windows.
  by replace (m + (length l - m) - m + 1)%nat with (length l + 1 - m)%nat
    by (unfold m; lia).
Qed.

Lemma fold_max_sub_min T r x :
  fold_left Z.max ((λ b, T - b) <$> r) (T - x) = T - fold_left Z.min r x.
Proof.
  revert x. induction r as [|y r IH]; intros x; simpl; [done|].
  replace (Z.max (T - x) (T - y)) with (T - Z.min x y) by lia. apply IH.
Qed.

Lemma maximum_sub_minimum T l :
  l ≠ [] → maximum ((λ b, T - b) <$> l) = T - minimum l.
Proof. destruct l as [|x r]; [done|]. intros _. apply fold_max_sub_min. Qed.

(** Taking [j] cards on the left and [k - j] on the right leaves the block of
    [n - k] cards that starts at [j]. *)
Lemma ends_total_complement l k j :
  (j ≤ k ≤ length l)%nat →
  ends_total l k j = sumZ l - wsum l (length l - k) j.
Proof.
  intros H. unfold ends_total, wsum. rewrite sumZ_drop. fold (psum l j).
  replace (length l - (k - j))%nat with (j + (length l - k))%nat by lia. lia.
Qed.

Lemma maxScore_spec_complement l k :
  0 ≤ k ≤ vsize l → maxScore_spec l k = maxScore_complement l k.
Proof.
  intros Hk. unfold maxScore_spec, maxScore_complement, windows, vsize in *.
  set (kn := Z.to_nat k).
  replace (length l + 1 - (length l - kn))%nat with (kn + 1)%nat by lia.
  rewrite sumZ_windows_upto.
  rewrite <- maximum_sub_minimum.
  - f_equal. rewrite <- list_fmap_compose. apply list_fmap_ext.
    intros i j Hj. simpl. apply ends_total_complement.
    apply lookup_seq in Hj. lia.
  - intros E. apply (f_equal length) in E.
    rewrite length_fmap, length_seq in E. simpl in E. lia.
Qed.

Lemma Forall_fmap_id (P : Z → Prop) (f : Z → Z) l :
  Forall P l → (∀ x, P x → f x = x) → f <$> l = l.
Proof.
  intros Hl Hf. induction Hl as [|x l Hx Hl IH]; [done|].
  rewrite fmap_cons, IH, Hf; done.
Qed.

Lemma sum32_windows_exact l k :
  Forall is_int (sumZ <$> windows k l) → sum32 <$> windows k l = sumZ <$> windows k l.
Proof.
  intros H.
  rewrite <- (Forall_fmap_id is_int wrap32 (sumZ <$> windows k l) H wrap32_id).
  rewrite <- list_fmap_compose. apply list_fmap_ext. intros _ w _. apply sum32_wrap.
Qed.

Lemma maxScore_exact l k :
  1 ≤ k ≤ vsize l → vsize l ≤ INT_MAX →
  Forall is_int (sumZ <$> windows (length l - Z.to_nat k) l) →
  is_int (maxScore_spec l k) →
  maxScore l k = Some (maxScore_spec l k).
Proof.
  intros Hk Hn Hb Hr. rewrite maxScore_wrapped by done.
  rewrite sum32_windows_exact by done.
  rewrite maxScore_spec_complement in * by lia.
  unfold maxScore_complement in *. by rewrite wrap32_id.
Qed.

(* ===================================================================== *)
(** ** Lemmas: 64-bit sums, distinct windows and the counting map *)
(* ===================================================================== *)

Lemma wrap64_add_l a b : wrap64 (wrap64 a + b) = wrap64 (a + b).
Proof.
  unfold wrap64.
  replace ((a + 2 ^ 63) mod 2 ^ 64 - 2 ^ 63 + b + 2 ^ 63)
    with ((a + 2 ^ 63) mod 2 ^ 64 + b) by lia.
  rewrite Zplus_mod_idemp_l. do 2 f_equal. lia.
Qed.

Lemma wrap64_sub_l a b : wrap64 (wrap64 a - b) = wrap64 (a - b).
Proof.
  replace (wrap64 a - b) with (wrap64 a + - b) by lia.
  by rewrite wrap64_add_l.
Qed.

Lemma sum64_from w a :
  fold_left (λ a x, wrap64 (a + x)) w (wrap64 a) = wrap64 (a + sumZ w).
Proof.
  revert a. induction w as [|x w IH]; intros a; simpl.
  - by rewrite Z.add_0_r.
  - rewrite wrap64_add_l, IH. f_equal. lia.
Qed.

Lemma sum64_wrap w : sum64 w = wrap64 (sumZ w).
Proof. unfold sum64. change 0 with (wrap64 0) at 1. by rewrite sum64_from. Qed.

Lemma sumZ_int_bound w :
  Forall is_int w →
  - 2 ^ 31 * Z.of_nat (length w) ≤ sumZ w ≤ 2 ^ 31 * Z.of_nat (length w).
Proof.
  induction 1 as [|x w Hx _ IH]; simpl; [lia|].
  unfold is_int, INT_MIN, INT_MAX in Hx. lia.
Qed.

(** A window of at most [INT_MAX] ints is summed exactly in 64 bits. *)
Lemma sum64_exact w :
  Forall is_int w → Z.of_nat (length w) ≤ INT_MAX → sum64 w = sumZ w.
Proof.
  intros Hw Hl. rewrite sum64_wrap. apply wrap64_id.
  pose proof (sumZ_int_bound w Hw). unfold INT_MAX in Hl.
  change (2 ^ 31) with 2147483648 in *. change (2 ^ 63) with 9223372036854775808.
  nia.
Qed.

Lemma max0_maximum_snoc l y :
  Z.max 0 (maximum (l ++ [y])) = Z.max (Z.max 0 (maximum l)) y.
Proof. rewrite maximum_snoc. destruct l; [unfold maximum|]; lia. Qed.

Lemma count_if_eqb_pos (z : Z) w : count_if (Z.eqb z) w ≠ 0 ↔ z ∈ w.
Proof.
  rewrite count_if_sum. induction w as [|x w IH].
  - simpl. split; [done|]. by intros ?%elem_of_nil.
  - rewrite fmap_cons, elem_of_cons, <- IH.
    change (sumZ (?a :: ?r)) with (a + sumZ r).
    pose proof (count_if_range (Z.eqb z) w) as Hr. rewrite count_if_sum in Hr.
    unfold ind at 1. destruct (Z.eqb_spec z x); [|lia].
    split; [by left|lia].
Qed.

Lemma size_list_to_set_le (w : list Z) :
  (size (list_to_set w : gset Z) ≤ length w)%nat.
Proof.
  induction w as [|x w IH].
  - rewrite list_to_set_nil, size_empty. simpl. lia.
  - rewrite list_to_set_cons. simpl length.
    destruct (decide (x ∈ (list_to_set w : gset Z))) as [Hin|Hin].
    + rewrite (subseteq_union_1_L {[x]} (list_to_set w))
        by (by apply singleton_subseteq_l).
      lia.
    + rewrite size_union by set_solver. rewrite size_singleton. lia.
Qed.

Lemma size_list_to_set_NoDup (w : list Z) :
  size (list_to_set w : gset Z) = length w ↔ NoDup w.
Proof.
  split; [|apply size_list_to_set].
  induction w as [|x w IH]; intros Hs; [constructor|].
  rewrite list_to_set_cons in Hs. simpl length in Hs.
  pose proof (size_list_to_set_le w) as Hle.
  destruct (decide (x ∈ (list_to_set w : gset Z))) as [Hin|Hin].
  - rewrite (subseteq_union_1_L {[x]} (list_to_set w)) in Hs
      by (by apply singleton_subseteq_l).
    lia.
  - rewrite size_union, size_singleton in Hs by set_solver.
    constructor; [by rewrite <- (elem_of_list_to_set (C:=gset Z))|]. apply IH. lia.
Qed.

Lemma occ_range l z a d : 0 ≤ occ l z a (a + d) ≤ Z.of_nat d.
Proof. apply psum_ind_range. Qed.

Lemma occ_admit l z a b x :
  l !! b = Some x → occ l z a (S b) = occ l z a b + ind (Z.eqb z) x.
Proof.
  intros Hx. unfold occ.
  rewrite (psum_S _ b (ind (Z.eqb z) x)) by (by rewrite list_lookup_fmap, Hx). lia.
Qed.

Lemma occ_evict l z a b x :
  l !! a = Some x → occ l z (S a) b = occ l z a b - ind (Z.eqb z) x.
Proof.
  intros Hx. unfold occ.
  rewrite (psum_S _ a (ind (Z.eqb z) x)) by (by rewrite list_lookup_fmap, Hx). lia.
Qed.

(** [cnt[x]++] admits [x = l[b]] into the window. *)
Lemma counts_admit cnt l a d x :
  counts cnt l a (a + d) → l !! (a + d)%nat = Some x → Z.of_nat d < INT_MAX →
  counts (<[x := wrap32 (default 0 (cnt !! x) + 1)]> cnt) l a (S (a + d)).
Proof.
  intros H Hx Hd z. rewrite (occ_admit _ _ _ _ _ Hx).
  pose proof (occ_range l z a d) as Hr. unfold ind.
  destruct (Z.eqb_spec z x) as [->|Hne].
  - rewrite lookup_insert_eq, (H x).
    assert (∀ v, 0 ≤ v ≤ Z.of_nat d → wrap32 (v + 1) = v + 1) as Hw.
    { intros v Hv. apply wrap32_id. int_lia. }
    destruct (decide (occ l x a (a + d) = 0)) as [E|E]; simpl.
    + rewrite E. by destruct (decide (0 + 1 = 0)).
    + rewrite Hw by done. destruct (decide (occ l x a (a + d) + 1 = 0)); [lia|done].
  - rewrite lookup_insert_ne, (H z), Z.add_0_r by done. done.
Qed.

(** [if (--cnt[out] == 0) cnt.erase(out)] evicts [out = l[a]] from the window. *)
Lemma counts_evict cnt l a d out :
  counts cnt l a (a + S d) → l !! a = Some out → Z.of_nat d < INT_MAX →
  let c := wrap32 (default 0 (cnt !! out) - 1) in
  let cnt' := <[out := c]> cnt in
  counts (if c =? 0 then delete out cnt' else cnt') l (S a) (a + S d).
Proof.
  intros H Hx Hd c cnt' z. rewrite (occ_evict _ _ _ _ _ Hx).
  pose proof (occ_range l out (S a) d) as Hr.
  replace (S a + d)%nat with (a + S d)%nat in Hr by lia.
  rewrite (occ_evict _ _ _ _ _ Hx) in Hr. unfold ind in Hr. rewrite Z.eqb_refl in Hr.
  assert (c = occ l out a (a + S d) - 1) as Hc.
  { unfold c. rewrite (H out).
    destruct (decide (occ l out a (a + S d) = 0)); [lia|]. simpl.
    apply wrap32_id. int_lia. }
  unfold ind. destruct (Z.eqb_spec z out) as [->|Hne].
  - destruct (Z.eqb_spec c 0) as [E|E].
    + rewrite lookup_delete_eq. destruct (decide _); [done|lia].
    + unfold cnt'. rewrite lookup_insert_eq. destruct (decide _); [lia|by rewrite Hc].
  - rewrite Z.sub_0_r, <- (H z).
    destruct (c =? 0); unfold cnt';
      [rewrite lookup_delete_ne by done|]; by rewrite lookup_insert_ne.
Qed.

(** [cnt.size() == k] tests that the window has no repeated element. *)
Lemma counts_size cnt l a d :
  counts cnt l a (a + d) → (a + d ≤ length l)%nat →
  size cnt = d ↔ NoDup (take d (drop a l)).
Proof.
  intros H Hl.
  assert (dom cnt = (list_to_set (take d (drop a l)) : gset Z)) as Hdom.
  { apply set_eq. intros z.
    rewrite elem_of_dom, elem_of_list_to_set, <- count_if_eqb_pos, count_if_window, (H z).
    change (wsum (ind (Z.eqb z) <$> l) d a) with (occ l z a (a + d)).
    destruct (decide _) as [E|E]; split; done. }
  rewrite <- size_dom, Hdom, <- size_list_to_set_NoDup.
  rewrite length_take, length_drop. split; lia.
Qed.

(* ===================================================================== *)
(** ** maximumSubarraySum: the loop and the brute force agree *)
(* ===================================================================== *)

Lemma maximumSubarraySum_refines nums k :
  1 ≤ k ≤ vsize nums → vsize nums ≤ INT_MAX →
  maximumSubarraySum nums k = Some (Z.max 0 (maximumSubarraySum_brute nums k)).
Proof.
  intros Hk Hn. unfold maximumSubarraySum. rewrite trips_0_vsize. unfold vsize in *.
  set (kn := Z.to_nat k).
  set (best := λ c, Z.max 0 (maximum (sum64 <$> List.filter distinct
                                        (windows_upto kn nums c)))).
  set (Inv := λ (i : nat) (st : mss_state),
    mss_s st = wrap64 (psum nums i - psum nums (wstart kn i)) ∧
    counts (mss_cnt st) nums (wstart kn i) i ∧
    mss_ans st = best (wstart kn i)).
  destruct (for_range_inv_next Inv (maximumSubarraySum_body nums k)
              (length nums) 0 (MssState 0 0 ∅)) as (st & E & _ & _ & Ha);
    [| |change (Z.of_nat 0) with 0 in E; rewrite E; clear E].
  { unfold Inv. replace (wstart kn 0) with 0%nat by (unfold wstart; lia).
    split; [done|]. split; [|done].
    intros z. unfold occ. cbn [mss_cnt]. rewrite Z.sub_diag. by rewrite lookup_empty. }
  { intros i [a s cnt] [_ Hi] (Hs & Hc & Ha). simpl in *.
    destruct (index_Some nums i Hi) as (x & Hx & Hx').
    unfold maximumSubarraySum_body. rewrite Hx. simpl.
    set (c := wstart kn i) in *.
    assert (Hs1 : wrap64 (s + x) = wrap64 (psum nums (S i) - psum nums c)).
    { rewrite Hs, wrap64_add_l, (psum_S _ _ _ Hx'). f_equal. lia. }
    rewrite Hs1.
    set (cnt1 := <[x := wrap32 (default 0 (cnt !! x) + 1)]> cnt).
    assert (Hc1 : counts cnt1 nums c (S i)).
    { replace i with (c + (i - c))%nat in Hc, Hx' |- * by (unfold c, wstart; lia).
      apply counts_admit; [done|done|]. unfold c, wstart, INT_MAX in *. lia. }
    rewrite left_index by lia.
    destruct (Z.ltb_spec (Z.of_nat i - k + 1) 0) as [Hlt|Hge].
    - eexists. split; [done|]. unfold Inv. simpl.
      replace (wstart kn (S i)) with c by (unfold c, wstart; lia). done.
    - assert (Hci : S i = (c + kn)%nat) by (unfold c, wstart; lia).
      replace (Z.of_nat i - k + 1) with (Z.of_nat c) by (unfold c, wstart; lia).
      destruct (index_Some nums c) as (out & Hy & Hy'); [unfold c, wstart; lia|].
      rewrite Hy. simpl. eexists. split; [done|]. unfold Inv. simpl.
      replace (wstart kn (S i)) with (S c) by (unfold c, wstart; lia).
      split; [|split].
      + rewrite wrap64_sub_l, (psum_S _ _ _ Hy'). f_equal. lia.
      + rewrite Hci in Hc1 |- *. replace kn with (S (kn - 1)) in Hc1 |- * by lia.
        apply counts_evict; [done|done|]. unfold INT_MAX in *. lia.
      + unfold best. rewrite windows_upto_S, List.filter_app. simpl List.filter.
        rewrite Hci in Hc1.
        pose proof (counts_size cnt1 nums c kn Hc1 ltac:(lia)) as Hsz.
        unfold to_size_t. rewrite (Z.mod_small k) by (unfold INT_MAX in *; lia).
        unfold distinct at 2.
        destruct (decide (NoDup (take kn (drop c nums)))) as [Hd|Hd].
        * rewrite bool_decide_eq_true_2 by done.
          apply Hsz in Hd.
          destruct (Z.eqb_spec (Z.of_nat (size cnt1)) k) as [_|Hne]; [|lia].
          rewrite fmap_app. change (sum64 <$> [?w]) with [sum64 w].
          rewrite max0_maximum_snoc, Ha. fold (best c). f_equal.
          rewrite sum64_wrap, sumZ_window. unfold wsum. by rewrite <- Hci.
        * rewrite bool_decide_eq_false_2 by done.
          destruct (Z.eqb_spec (Z.of_nat (size cnt1)) k) as [He|_].
          -- exfalso. apply Hd, Hsz. lia.
          -- by rewrite app_nil_r. }
  simpl. rewrite Ha. unfold best, maximumSubarraySum_brute, windows. fold kn.
  by replace (wstart kn (length nums)) with (length nums + 1 - kn)%nat by done.
Qed.

(* ===================================================================== *)
(** ** findMaxAverage: the loop finds the largest window sum *)
(* ===================================================================== *)

Lemma fold_max_INT_MIN l :
  l ≠ [] → Forall is_int l → fold_left Z.max l INT_MIN = maximum l.
Proof.
  destruct l as [|x r]; [done|]. intros _ Hl. simpl.
  apply Forall_cons in Hl as [Hx _]. unfold is_int in Hx.
  by replace (Z.max INT_MIN x) with x by lia.
Qed.

Lemma sum32_is_int {A} (f : A → list Z) l : Forall is_int ((λ x, sum32 (f x)) <$> l).
Proof.
  apply Forall_fmap, Forall_forall. intros x _. simpl.
  rewrite sum32_wrap. apply wrap32_range.
Qed.

Lemma findMaxAverage_max_s_wrapped nums k :
  1 ≤ k ≤ vsize nums → vsize nums ≤ INT_MAX →
  findMaxAverage_max_s nums k = Some (maximum (sum32 <$> windows (Z.to_nat k) nums)).
Proof.
  intros Hk Hn. unfold findMaxAverage_max_s. rewrite trips_0_vsize. unfold vsize in *.
  set (kn := Z.to_nat k).
  set (Inv := λ (i : nat) (st : fma_state),
    fma_s st = wrap32 (psum nums i - psum nums (wstart kn i)) ∧
    fma_max_s st = fold_left Z.max (sum32 <$> windows_upto kn nums (wstart kn i)) INT_MIN).
  destruct (for_range_inv_next Inv (findMaxAverage_body nums k)
              (length nums) 0 (FmaState INT_MIN 0)) as (st & E & _ & Ha);
    [| |change (Z.of_nat 0) with 0 in E; rewrite E; clear E].
  { unfold Inv. replace (wstart kn 0) with 0%nat by (unfold wstart; lia). by split. }
  { intros i [a s] [_ Hi] [Hs Ha]. simpl in *.
    destruct (index_Some nums i Hi) as (x & Hx & Hx').
    unfold findMaxAverage_body. rewrite Hx. simpl.
    rewrite Hs, wrap32_add_l.
    replace (psum nums i - psum nums (wstart kn i) + x)
      with (psum nums (S i) - psum nums (wstart kn i))
      by (rewrite (psum_S _ _ _ Hx'); lia).
    rewrite (wrap32_id (k - 1)) by int_lia.
    destruct (Z.ltb_spec (Z.of_nat i) (k - 1)) as [Hlt|Hge].
    - eexists. split; [done|]. unfold Inv. simpl.
      replace (wstart kn (S i)) with (wstart kn i) by (unfold wstart; lia).
      by rewrite Ha.
    - rewrite left_index by lia.
      assert (Hc : Z.of_nat i - k + 1 = Z.of_nat (wstart kn i)) by (unfold wstart; lia).
      rewrite Hc.
      destruct (index_Some nums (wstart kn i)) as (y & Hy & Hy'); [unfold wstart; lia|].
      rewrite Hy. simpl. eexists. split; [done|]. unfold Inv. simpl.
      replace (wstart kn (S i)) with (S (wstart kn i)) by (unfold wstart; lia).
      split.
      + rewrite wrap32_sub_l, (psum_S _ _ _ Hy'). f_equal. lia.
      + rewrite fmap_windows_upto_S, fold_left_app, <- Ha. simpl.
        rewrite sum32_wrap, sumZ_window. unfold wsum.
        by replace (wstart kn i + kn)%nat with (S i) by (unfold wstart; lia). }
  simpl. rewrite Ha. f_equal. unfold windows. fold kn.
  replace (wstart kn (length nums)) with (length nums + 1 - kn)%nat by done.
  apply fold_max_INT_MIN.
  - apply windows_upto_ne. lia.
  - unfold windows_upto. rewrite <- list_fmap_compose. apply sum32_is_int.
Qed.

Lemma findMaxAverage_exact nums k :
  1 ≤ k ≤ vsize nums → vsize nums ≤ INT_MAX →
  Forall is_int (sumZ <$> windows (Z.to_nat k) nums) →
  findMaxAverage nums k = Some (findMaxAverage_spec nums k).
Proof.
  intros Hk Hn Hw. unfold findMaxAverage, findMaxAverage_spec.
  rewrite findMaxAverage_max_s_wrapped by done. simpl.
  by rewrite sum32_windows_exact.
Qed.

(* ===================================================================== *)
(** ** numOfSubarrays: the test of the code and the mean *)
(* ===================================================================== *)

Lemma windows_elem {A} k (l : list A) w :
  w ∈ windows k l → (k ≤ length l)%nat →
  ∃ j, (j + k ≤ length l)%nat ∧ w = take k (drop j l).
Proof.
  unfold windows, windows_upto. intros (j & -> & Hj)%list_elem_of_fmap Hk.
  apply elem_of_seq in Hj. exists j. split; [lia|done].
Qed.

Lemma windows_elem_length {A} k (l : list A) w :
  w ∈ windows k l → (k ≤ length l)%nat → length w = k.
Proof.
  intros Hw Hk. destruct (windows_elem k l w Hw Hk) as (j & Hj & ->).
  rewrite length_take, length_drop. lia.
Qed.

Lemma Zpos_of_nat n : (0 < n)%nat → Z.pos (Pos.of_nat n) = Z.of_nat n.
Proof. intros Hn. rewrite <- positive_nat_Z, Nat2Pos.id; lia. Qed.

(** For a window of [k] elements, [mean >= threshold] is [sum >= k * threshold]. *)
Lemma mean_ge_iff w k threshold :
  (0 < length w)%nat → k = Z.of_nat (length w) →
  Qle_bool (inject_Z threshold) (mean w) = (k * threshold <=? sumZ w).
Proof.
  intros Hl ->. unfold mean, Qle_bool, inject_Z. simpl Qnum. simpl Qden.
  rewrite Zpos_of_nat by done. f_equal; lia.
Qed.

Lemma numOfSubarrays_brute_spec arr k threshold :
  1 ≤ k ≤ vsize arr →
  Forall is_int (sumZ <$> windows (Z.to_nat k) arr) → is_int (k * threshold) →
  numOfSubarrays_brute arr k threshold = numOfSubarrays_spec arr k threshold.
Proof.
  intros Hk Hw Ht. unfold numOfSubarrays_brute, numOfSubarrays_spec, vsize in *.
  do 2 f_equal. apply List.filter_ext_in. intros w Hin.
  apply list_elem_of_In in Hin.
  pose proof (windows_elem_length _ _ _ Hin ltac:(lia)) as Hlen.
  rewrite (mean_ge_iff w k) by lia.
  rewrite (wrap32_id _ Ht), sum32_wrap, wrap32_id; [done|].
  rewrite Forall_fmap, Forall_forall in Hw. by apply Hw.
Qed.

Lemma numOfSubarrays_exact arr k threshold :
  1 ≤ k ≤ vsize arr → vsize arr ≤ INT_MAX →
  Forall is_int (sumZ <$> windows (Z.to_nat k) arr) → is_int (k * threshold) →
  numOfSubarrays arr k threshold = Some (numOfSubarrays_spec arr k threshold).
Proof.
  intros. rewrite numOfSubarrays_refines by done.
  by rewrite numOfSubarrays_brute_spec.
Qed.

(* ===================================================================== *)
(** ** maximumSubarraySum: exact 64-bit sums *)
(* ===================================================================== *)

Lemma maximumSubarraySum_brute_spec nums k :
  1 ≤ k ≤ vsize nums → vsize nums ≤ INT_MAX → Forall is_int nums →
  maximumSubarraySum_brute nums k = maximumSubarraySum_spec nums k.
Proof.
  intros Hk Hn Hi. unfold maximumSubarraySum_brute, maximumSubarraySum_spec, vsize in *.
  f_equal. apply list_fmap_ext. intros i w Hw.
  apply list_elem_of_lookup_2, list_elem_of_In, List.filter_In in Hw as [Hw _].
  apply list_elem_of_In in Hw.
  destruct (windows_elem _ _ _ Hw ltac:(lia)) as (j & Hj & ->).
  apply sum64_exact.
  - by apply Forall_take, Forall_drop.
  - rewrite length_take, length_drop. lia.
Qed.

Lemma maximumSubarraySum_exact nums k :
  1 ≤ k ≤ vsize nums → vsize nums ≤ INT_MAX → Forall is_int nums →
  maximumSubarraySum nums k = Some (Z.max 0 (maximumSubarraySum_spec nums k)).
Proof.
  intros. rewrite maximumSubarraySum_refines by done.
  by rewrite maximumSubarraySum_brute_spec.
Qed.

(* ===================================================================== *)
(** ** Lemmas: minima *)
(* ===================================================================== *)

Lemma fold_min_le r x :
  fold_left Z.min r x ≤ x ∧ ∀ y, y ∈ r → fold_left Z.min r x ≤ y.
Proof.
  revert x. induction r as [|z r IH]; intros x; simpl.
  - split; [lia|]. intros y Hy. by apply elem_of_nil in Hy.
  - destruct (IH (Z.min x z)) as [H1 H2]. split; [lia|].
    intros y [->|Hy]%elem_of_cons; [lia|by apply H2].
Qed.

Lemma fold_min_in r x : fold_left Z.min r x ∈ x :: r.
Proof.
  revert x. induction r as [|z r IH]; intros x; simpl.
  - apply list_elem_of_here.
  - specialize (IH (Z.min x z)).
    apply elem_of_cons in IH as [->|IH].
    + destruct (Z.min_spec x z) as [[_ ->]|[_ ->]].
      * apply list_elem_of_here.
      * apply list_elem_of_further, list_elem_of_here.
    + by do 2 apply list_elem_of_further.
Qed.

Lemma minimum_le l y : y ∈ l → minimum l ≤ y.
Proof.
  destruct l as [|x r]; [by intros ?%elem_of_nil|].
  simpl. destruct (fold_min_le r x) as [H1 H2].
  intros [->|Hy]%elem_of_cons; [done|by apply H2].
Qed.

Lemma minimum_in l : l ≠ [] → minimum l ∈ l.
Proof. destruct l as [|x r]; [done|]. intros _. apply fold_min_in. Qed.

Lemma minimum_unique l m : m ∈ l → (∀ y, y ∈ l → m ≤ y) → minimum l = m.
Proof.
  intros Hm Hle. pose proof (minimum_le l m Hm).
  assert (l ≠ []) as Hne by (intros ->; by apply elem_of_nil in Hm).
  pose proof (Hle _ (minimum_in l Hne)). lia.
Qed.

(* ===================================================================== *)
(** ** Lemmas: the windows for [k = n] and [k = 1] *)
(* ===================================================================== *)

Lemma windows_whole {A} (l : list A) : windows (length l) l = [l].
Proof.
  unfold windows, windows_upto.
  replace (length l + 1 - length l)%nat with 1%nat by lia.
  simpl. by rewrite take_ge.
Qed.

Lemma windows_upto_cons {A} k (x : A) l c :
  windows_upto k (x :: l) (S c) = take k (x :: l) :: windows_upto k l c.
Proof.
  unfold windows_upto. simpl seq. rewrite fmap_cons. f_equal.
  by rewrite <- fmap_S_seq, <- list_fmap_compose.
Qed.

Lemma windows_1 {A} (l : list A) : windows 1 l = (λ x, [x]) <$> l.
Proof.
  unfold windows. replace (length l + 1 - 1)%nat with (length l) by lia.
  induction l as [|x l IH]; [done|].
  simpl length. by rewrite windows_upto_cons, IH.
Qed.

Lemma count_if_windows_1 {A} (p : A → bool) (s : list A) :
  count_if p <$> windows 1 s = ind p <$> s.
Proof.
  rewrite windows_1, <- list_fmap_compose. apply list_fmap_ext.
  intros _ x _. unfold count_if, ind. simpl. by destruct (p x).
Qed.

Lemma sumZ_windows_1 (l : list Z) : sumZ <$> windows 1 l = l.
Proof.
  rewrite windows_1, <- list_fmap_compose. rewrite <- (list_fmap_id l) at 2.
  apply list_fmap_ext. intros _ x _. simpl. lia.
Qed.

Lemma maximum_ind {A} (p : A → bool) (s : list A) :
  s ≠ [] → maximum (ind p <$> s) = if existsb p s then 1 else 0.
Proof.
  intros Hs.
  assert (ind p <$> s ≠ []) as Hne by (by destruct s).
  pose proof (maximum_in _ Hne) as (x & Hm & Hx)%list_elem_of_fmap.
  destruct (existsb p s) eqn:E.
  - apply existsb_exists in E as (y & Hy%list_elem_of_In & Hpy).
    pose proof (maximum_ge (ind p <$> s) (ind p y)
                  (list_elem_of_fmap_2 (ind p) s y Hy)) as Hge.
    rewrite Hm in *. unfold ind in *. rewrite Hpy in Hge.
    destruct (p x); lia.
  - rewrite Hm. unfold ind. destruct (p x) eqn:Hpx; [|done].
    assert (existsb p s = true) as E'; [|congruence].
    apply existsb_exists. exists x. split; [by apply list_elem_of_In|done].
Qed.

Lemma minimum_ind {A} (p : A → bool) (s : list A) :
  s ≠ [] → minimum (ind p <$> s) = if forallb p s then 1 else 0.
Proof.
  intros Hs.
  assert (ind p <$> s ≠ []) as Hne by (by destruct s).
  pose proof (minimum_in _ Hne) as (x & Hm & Hx)%list_elem_of_fmap.
  destruct (forallb p s) eqn:E.
  - rewrite forallb_forall in E. rewrite Hm. unfold ind.
    by rewrite (E x) by (by apply list_elem_of_In).
  - destruct (p x) eqn:Hpx.
    + assert (forallb p s = true) as E'; [|congruence].
      apply forallb_forall. intros y Hy%list_elem_of_In.
      pose proof (minimum_le (ind p <$> s) (ind p y)
                    (list_elem_of_fmap_2 (ind p) s y Hy)) as Hle.
      rewrite Hm in Hle. unfold ind in Hle. rewrite Hpx in Hle.
      destruct (p y); [done|lia].
    + rewrite Hm. unfold ind. by rewrite Hpx.
Qed.

Lemma filter_distinct_windows_1 (l : list Z) :
  List.filter distinct (windows 1 l) = windows 1 l.
Proof.
  rewrite windows_1. induction l as [|x l IH]; [done|].
  rewrite fmap_cons. cbn [List.filter].
  assert (distinct [x] = true) as -> by (apply bool_decide_eq_true_2, NoDup_singleton).
  by rewrite IH.
Qed.

Lemma minimum_zeros (l : list Z) : (∀ y, y ∈ l → y = 0) → minimum l = 0.
Proof.
  intros H. destruct l as [|x r] eqn:E; [done|].
  apply H, minimum_in. done.
Qed.

(* ===================================================================== *)
(** * The properties of the specification *)
(* ===================================================================== *)

(** C1 (as amended).  For every valid input, with [1 <= k <= n] and [n] an
    [int], the sliding-window functions return what the brute force returns
    that recomputes every window on its own: [maxVowels] the largest vowel
    count of a window (its early [break] included), [numOfSubarrays] the number
    of windows that pass the test, and [maximumSubarraySum] the larger of [0]
    and the largest sum of a window of pairwise distinct elements. *)
Theorem windows_agree_with_brute_force
    (s : list ascii) (nums arr : list Z) (k1 k2 k3 threshold : Z) :
  1 ≤ k1 ≤ vsize s → vsize s ≤ INT_MAX →
  1 ≤ k2 ≤ vsize nums → vsize nums ≤ INT_MAX →
  1 ≤ k3 ≤ vsize arr → vsize arr ≤ INT_MAX →
  maxVowels s k1 = Some (maxVowels_brute s k1) ∧
  maximumSubarraySum nums k2 = Some (Z.max 0 (maximumSubarraySum_brute nums k2)) ∧
  numOfSubarrays arr k3 threshold = Some (numOfSubarrays_brute arr k3 threshold).
Proof.
  intros. split; [|split].
  - by apply maxVowels_refines.
  - by apply maximumSubarraySum_refines.
  - by apply numOfSubarrays_refines.
Qed.

Lemma windows_agree_with_brute_force_witness :
  maxVowels (list_ascii_of_string "leetcode") 3
    = Some (maxVowels_brute (list_ascii_of_string "leetcode") 3) ∧
  maximumSubarraySum [1; 5; 4; 2; 9; 9; 9] 3
    = Some (Z.max 0 (maximumSubarraySum_brute [1; 5; 4; 2; 9; 9; 9] 3)) ∧
  numOfSubarrays [11; 13; 17; 23; 29; 31; 7; 5; 2; 3] 3 5
    = Some (numOfSubarrays_brute [11; 13; 17; 23; 29; 31; 7; 5; 2; 3] 3 5).
Proof.
  apply (windows_agree_with_brute_force
           (list_ascii_of_string "leetcode") [1; 5; 4; 2; 9; 9; 9]
           [11; 13; 17; 23; 29; 31; 7; 5; 2; 3] 3 3 3 5);
    vm_compute; intuition discriminate.
Defined.

(** C1 as stated fails: the only window of [[-1; -2]] has distinct elements and
    sum [-3], which the brute force returns, and the code returns [0]. *)
Lemma maximumSubarraySum_brute_differs :
  1 ≤ 2 ≤ vsize [-1; -2] ∧ Forall is_int [-1; -2] ∧
  maximumSubarraySum_brute [-1; -2] 2 = -3 ∧
  maximumSubarraySum [-1; -2] 2 = Some 0 ∧
  maximumSubarraySum [-1; -2] 2 ≠ Some (maximumSubarraySum_brute [-1; -2] 2).
Proof.
  split; [by vm_compute|]. split; [by repeat constructor|].
  split; [by vm_compute|]. split; by vm_compute.
Qed.

(** C2 (as amended).  For [1 <= k <= n], when the sum of every block of [n - k]
    consecutive cards and the best total itself fit in an [int], [maxScore]
    returns the largest total of [k] cards taken from the two ends; that total
    is the sum of all cards minus the smallest sum of a block of [n - k]
    consecutive cards; and [maxScore([1,79,80,1,1,1,200,1], 3) = 202]. *)
Theorem maxScore_correct (cardPoints : list Z) (k : Z) :
  1 ≤ k ≤ vsize cardPoints → vsize cardPoints ≤ INT_MAX →
  Forall is_int (sumZ <$> windows (length cardPoints - Z.to_nat k) cardPoints) →
  is_int (maxScore_spec cardPoints k) →
  maxScore cardPoints k = Some (maxScore_spec cardPoints k) ∧
  maxScore_spec cardPoints k = maxScore_complement cardPoints k ∧
  maxScore [1; 79; 80; 1; 1; 1; 200; 1] 3 = Some 202.
Proof.
  intros Hk Hn Hb Hr. split; [|split].
  - by apply maxScore_exact.
  - apply maxScore_spec_complement. lia.
  - by vm_compute.
Qed.

Lemma maxScore_correct_witness :
  maxScore [1; 79; 80; 1; 1; 1; 200; 1] 3
    = Some (maxScore_spec [1; 79; 80; 1; 1; 1; 200; 1] 3) ∧
  maxScore_spec [1; 79; 80; 1; 1; 1; 200; 1] 3
    = maxScore_complement [1; 79; 80; 1; 1; 1; 200; 1] 3 ∧
  maxScore [1; 79; 80; 1; 1; 1; 200; 1] 3 = Some 202.
Proof.
  apply (maxScore_correct [1; 79; 80; 1; 1; 1; 200; 1] 3).
  - vm_compute. intuition discriminate.
  - vm_compute. discriminate.
  - compute_done.
  - vm_compute. intuition discriminate.
Defined.

(** C2 as stated fails: with two cards of [INT_MAX] the best total of two cards
    is [4294967294], which no [int] holds; the code returns [-2]. *)
Lemma maxScore_overflow :
  1 ≤ 2 ≤ vsize [2147483647; 2147483647; 0] ∧
  Forall is_int [2147483647; 2147483647; 0] ∧
  maxScore_spec [2147483647; 2147483647; 0] 2 = 4294967294 ∧
  maxScore [2147483647; 2147483647; 0] 2 = Some (-2) ∧
  maxScore [2147483647; 2147483647; 0] 2
    ≠ Some (maxScore_spec [2147483647; 2147483647; 0] 2).
Proof.
  split; [by vm_compute|]. split; [compute_done|].
  split; [by vm_compute|]. split; by vm_compute.
Qed.

(** C3 (as amended).  For a vector of [int]s and [1 <= k <= n],
    [maximumSubarraySum] returns the larger of [0] and the largest sum of a
    length-[k] window with pairwise distinct elements: that largest sum when it
    is not negative, and [0] when no window qualifies; in particular
    [maximumSubarraySum([1,5,4,2,9,9,9], 3) = 15] and
    [maximumSubarraySum([4,4,4], 3) = 0]. *)
Theorem maximumSubarraySum_correct (nums : list Z) (k : Z) :
  1 ≤ k ≤ vsize nums → vsize nums ≤ INT_MAX → Forall is_int nums →
  maximumSubarraySum nums k = Some (Z.max 0 (maximumSubarraySum_spec nums k)) ∧
  (0 ≤ maximumSubarraySum_spec nums k →
   maximumSubarraySum nums k = Some (maximumSubarraySum_spec nums k)) ∧
  (List.filter distinct (windows (Z.to_nat k) nums) = [] →
   maximumSubarraySum nums k = Some 0) ∧
  maximumSubarraySum [1; 5; 4; 2; 9; 9; 9] 3 = Some 15 ∧
  maximumSubarraySum [4; 4; 4] 3 = Some 0.
Proof.
  intros Hk Hn Hi.
  pose proof (maximumSubarraySum_exact nums k Hk Hn Hi) as E.
  split; [done|]. split; [|split; [|split]].
  - intros H0. rewrite E. f_equal. lia.
  - intros Hnil. rewrite E. unfold maximumSubarraySum_spec. by rewrite Hnil.
  - by vm_compute.
  - by vm_compute.
Qed.

Lemma maximumSubarraySum_correct_witness :
  maximumSubarraySum [1; 5; 4; 2; 9; 9; 9] 3
    = Some (Z.max 0 (maximumSubarraySum_spec [1; 5; 4; 2; 9; 9; 9] 3)) ∧
  (0 ≤ maximumSubarraySum_spec [1; 5; 4; 2; 9; 9; 9] 3 →
   maximumSubarraySum [1; 5; 4; 2; 9; 9; 9] 3
     = Some (maximumSubarraySum_spec [1; 5; 4; 2; 9; 9; 9] 3)) ∧
  (List.filter distinct (windows (Z.to_nat 3) [1; 5; 4; 2; 9; 9; 9]) = [] →
   maximumSubarraySum [1; 5; 4; 2; 9; 9; 9] 3 = Some 0) ∧
  maximumSubarraySum [1; 5; 4; 2; 9; 9; 9] 3 = Some 15 ∧
  maximumSubarraySum [4; 4; 4] 3 = Some 0.
Proof.
  apply (maximumSubarraySum_correct [1; 5; 4; 2; 9; 9; 9] 3).
  - vm_compute. intuition discriminate.
  - vm_compute. discriminate.
  - compute_done.
Defined.

(** C3 as stated fails: the window [[-1; -2]] has distinct elements, so the
    largest qualifying sum is [-3], and the code returns [0]. *)
Lemma maximumSubarraySum_negative_window :
  1 ≤ 2 ≤ vsize [-1; -2] ∧ Forall is_int [-1; -2] ∧
  List.filter distinct (windows 2 [-1; -2]) = [[-1; -2]] ∧
  maximumSubarraySum_spec [-1; -2] 2 = -3 ∧
  maximumSubarraySum [-1; -2] 2 = Some 0 ∧
  maximumSubarraySum [-1; -2] 2 ≠ Some (maximumSubarraySum_spec [-1; -2] 2).
Proof.
  split; [by vm_compute|]. split; [compute_done|].
  split; [by vm_compute|]. split; [by vm_compute|]. split; by vm_compute.
Qed.

(** C4 (as amended).  For [1 <= k <= n], when the sum of every length-[k]
    window and the product [k * threshold] fit in an [int], [numOfSubarrays]
    returns the number of length-[k] windows whose mean is at least
    [threshold]; on such a window the test [sum >= k * threshold] of the code is
    that comparison; and [numOfSubarrays([2,2,2,2,5,5,5,8], 3, 4) = 3]. *)
Theorem numOfSubarrays_correct (arr : list Z) (k threshold : Z) :
  1 ≤ k ≤ vsize arr → vsize arr ≤ INT_MAX →
  Forall is_int (sumZ <$> windows (Z.to_nat k) arr) → is_int (k * threshold) →
  numOfSubarrays arr k threshold = Some (numOfSubarrays_spec arr k threshold) ∧
  (∀ w, w ∈ windows (Z.to_nat k) arr →
        Qle_bool (inject_Z threshold) (mean w) = (k * threshold <=? sumZ w)) ∧
  numOfSubarrays [2; 2; 2; 2; 5; 5; 5; 8] 3 4 = Some 3.
Proof.
  intros Hk Hn Hw Ht. split; [|split].
  - by apply numOfSubarrays_exact.
  - intros w Hin. unfold vsize in *.
    pose proof (windows_elem_length _ _ _ Hin ltac:(lia)).
    apply mean_ge_iff; lia.
  - by vm_compute.
Qed.

Lemma numOfSubarrays_correct_witness :
  numOfSubarrays [2; 2; 2; 2; 5; 5; 5; 8] 3 4
    = Some (numOfSubarrays_spec [2; 2; 2; 2; 5; 5; 5; 8] 3 4) ∧
  (∀ w, w ∈ windows (Z.to_nat 3) [2; 2; 2; 2; 5; 5; 5; 8] →
        Qle_bool (inject_Z 4) (mean w) = (3 * 4 <=? sumZ w)) ∧
  numOfSubarrays [2; 2; 2; 2; 5; 5; 5; 8] 3 4 = Some 3.
Proof.
  apply (numOfSubarrays_correct [2; 2; 2; 2; 5; 5; 5; 8] 3 4).
  - vm_compute. intuition discriminate.
  - vm_compute. discriminate.
  - compute_done.
  - vm_compute. intuition discriminate.
Defined.

(** C4 as stated fails: for [arr = [0, 0]], [k = 2] and [threshold = 2^30] the
    product [k * threshold] does not fit in an [int]; no window has a mean of
    [2^30], and the code counts one. *)
Lemma numOfSubarrays_threshold_overflow :
  1 ≤ 2 ≤ vsize [0; 0] ∧ Forall is_int [0; 0] ∧ is_int 1073741824 ∧
  numOfSubarrays_spec [0; 0] 2 1073741824 = 0 ∧
  numOfSubarrays [0; 0] 2 1073741824 = Some 1 ∧
  numOfSubarrays [0; 0] 2 1073741824
    ≠ Some (numOfSubarrays_spec [0; 0] 2 1073741824).
Proof.
  split; [by vm_compute|]. split; [compute_done|]. split; [by vm_compute|].
  split; [by vm_compute|]. split; by vm_compute.
Qed.

(** C5.  For every string [s] of length [n] (an [int]) and [1 <= k <= n],
    [maxVowels] returns the largest number of vowels of a length-[k] window:
    a number that some window attains and no window exceeds; in particular
    [maxVowels("abciiidef", 3) = 3]. *)
Theorem maxVowels_correct (s : list ascii) (k : Z) :
  1 ≤ k ≤ vsize s → vsize s ≤ INT_MAX →
  maxVowels s k = Some (maximum (count_if is_vowel <$> windows (Z.to_nat k) s)) ∧
  (∃ v, maxVowels s k = Some v ∧
        (∃ w, w ∈ windows (Z.to_nat k) s ∧ count_if is_vowel w = v) ∧
        (∀ w, w ∈ windows (Z.to_nat k) s → count_if is_vowel w ≤ v)) ∧
  maxVowels (list_ascii_of_string "abciiidef") 3 = Some 3.
Proof.
  intros Hk Hn. pose proof (maxVowels_refines s k Hk Hn) as E.
  unfold maxVowels_brute in E. split; [done|]. split; [|by vm_compute].
  eexists. split; [exact E|]. split.
  - assert (count_if is_vowel <$> windows (Z.to_nat k) s ≠ []) as Hne.
    { apply windows_upto_ne. unfold vsize in *. lia. }
    apply maximum_in, list_elem_of_fmap in Hne as (w & Hw & Hin). eauto.
  - intros w Hin. apply maximum_ge. by apply list_elem_of_fmap_2.
Qed.

Lemma maxVowels_correct_witness :
  maxVowels (list_ascii_of_string "abciiidef") 3
    = Some (maximum (count_if is_vowel
                       <$> windows (Z.to_nat 3) (list_ascii_of_string "abciiidef"))) ∧
  (∃ v, maxVowels (list_ascii_of_string "abciiidef") 3 = Some v ∧
        (∃ w, w ∈ windows (Z.to_nat 3) (list_ascii_of_string "abciiidef")
              ∧ count_if is_vowel w = v) ∧
        (∀ w, w ∈ windows (Z.to_nat 3) (list_ascii_of_string "abciiidef")
              → count_if is_vowel w ≤ v)) ∧
  maxVowels (list_ascii_of_string "abciiidef") 3 = Some 3.
Proof.
  apply (maxVowels_correct (list_ascii_of_string "abciiidef") 3).
  - vm_compute. intuition discriminate.
  - vm_compute. discriminate.
Defined.

(** C6.  For every string [blocks] over ['W'] and ['B'] of length [n] (an
    [int]) and [1 <= k <= n], [minimumRecolors] returns the smallest number of
    characters other than ['B'] of a length-[k] window, which is the smallest
    number of ['W']; the copies of the file in the two directories return the
    same value; in particular [minimumRecolors("WBBWWBBWBW", 7) = 3]. *)
Theorem minimumRecolors_correct (blocks : list ascii) (k : Z) :
  1 ≤ k ≤ vsize blocks → vsize blocks ≤ INT_MAX →
  Forall (λ c, c = "W"%char ∨ c = "B"%char) blocks →
  Dir1.minimumRecolors blocks k = Some (minimumRecolors_spec blocks k) ∧
  DirI.minimumRecolors blocks k = Some (minimumRecolors_spec blocks k) ∧
  minimumRecolors_spec blocks k
    = minimum (count_if is_W <$> windows (Z.to_nat k) blocks) ∧
  Dir1.minimumRecolors (list_ascii_of_string "WBBWWBBWBW") 7 = Some 3 ∧
  DirI.minimumRecolors (list_ascii_of_string "WBBWWBBWBW") 7 = Some 3.
Proof.
  intros Hk Hn Hwb.
  assert (minimumRecolors_spec blocks k
          = minimum (count_if is_W <$> windows (Z.to_nat k) blocks)) as E.
  { unfold minimumRecolors_spec, windows. rewrite !count_if_windows_upto.
    do 3 f_equal. apply list_fmap_ext. intros i c Hc. unfold ind.
    apply list_elem_of_lookup_2 in Hc. rewrite Forall_forall in Hwb.
    by destruct (Hwb c Hc) as [-> | ->]. }
  pose proof (minimumRecolors_W blocks k Hk Hn) as H1. rewrite <- E in H1.
  split; [exact H1|]. split; [exact H1|]. split; [exact E|].
  split; by vm_compute.
Qed.

Lemma minimumRecolors_correct_witness :
  Dir1.minimumRecolors (list_ascii_of_string "WBBWWBBWBW") 7
    = Some (minimumRecolors_spec (list_ascii_of_string "WBBWWBBWBW") 7) ∧
  DirI.minimumRecolors (list_ascii_of_string "WBBWWBBWBW") 7
    = Some (minimumRecolors_spec (list_ascii_of_string "WBBWWBBWBW") 7) ∧
  minimumRecolors_spec (list_ascii_of_string "WBBWWBBWBW") 7
    = minimum (count_if is_W
                 <$> windows (Z.to_nat 7) (list_ascii_of_string "WBBWWBBWBW")) ∧
  Dir1.minimumRecolors (list_ascii_of_string "WBBWWBBWBW") 7 = Some 3 ∧
  DirI.minimumRecolors (list_ascii_of_string "WBBWWBBWBW") 7 = Some 3.
Proof.
  apply (minimumRecolors_correct (list_ascii_of_string "WBBWWBBWBW") 7).
  - vm_compute. intuition discriminate.
  - vm_compute. discriminate.
  - compute_done.
Defined.

(** C7 (as amended).  For [1 <= k <= n], when the sum of every length-[k]
    window fits in an [int], [findMaxAverage] returns the largest window sum,
    converted to [double], divided by [k] in double precision; in particular
    [findMaxAverage([1,12,-5,-6,50,3], 4) = 12.75]. *)
Theorem findMaxAverage_correct (nums : list Z) (k : Z) :
  1 ≤ k ≤ vsize nums → vsize nums ≤ INT_MAX →
  Forall is_int (sumZ <$> windows (Z.to_nat k) nums) →
  findMaxAverage nums k = Some (findMaxAverage_spec nums k) ∧
  findMaxAverage_max_s nums k
    = Some (maximum (sumZ <$> windows (Z.to_nat k) nums)) ∧
  findMaxAverage [1; 12; -5; -6; 50; 3] 4 = Some 12.75%float.
Proof.
  intros Hk Hn Hw. split; [by apply findMaxAverage_exact|]. split.
  - rewrite findMaxAverage_max_s_wrapped by done. by rewrite sum32_windows_exact.
  - by vm_compute.
Qed.

Lemma findMaxAverage_correct_witness :
  findMaxAverage [1; 12; -5; -6; 50; 3] 4
    = Some (findMaxAverage_spec [1; 12; -5; -6; 50; 3] 4) ∧
  findMaxAverage_max_s [1; 12; -5; -6; 50; 3] 4
    = Some (maximum (sumZ <$> windows (Z.to_nat 4) [1; 12; -5; -6; 50; 3])) ∧
  findMaxAverage [1; 12; -5; -6; 50; 3] 4 = Some 12.75%float.
Proof.
  apply (findMaxAverage_correct [1; 12; -5; -6; 50; 3] 4).
  - vm_compute. intuition discriminate.
  - vm_compute. discriminate.
  - compute_done.
Defined.

(** C7 as stated fails: the only window of [[INT_MAX; 1]] has sum [2^31], which
    no [int] holds; the largest average is [1073741824], and the running sum of
    the code wraps to [INT_MIN]. *)
Lemma findMaxAverage_overflow :
  1 ≤ 2 ≤ vsize [2147483647; 1] ∧ Forall is_int [2147483647; 1] ∧
  maximum (sumZ <$> windows 2 [2147483647; 1]) = 2147483648 ∧
  findMaxAverage_max_s [2147483647; 1] 2 = Some (-2147483648) ∧
  findMaxAverage [2147483647; 1] 2 = Some (-1073741824)%float ∧
  findMaxAverage_spec [2147483647; 1] 2 = 1073741824%float ∧
  findMaxAverage [2147483647; 1] 2 ≠ Some (findMaxAverage_spec [2147483647; 1] 2).
Proof.
  split; [by vm_compute|]. split; [compute_done|]. split; [by vm_compute|].
  split; [by vm_compute|]. split; [by vm_compute|]. split; [by vm_compute|].
  intros H.
  apply (f_equal (λ o, match o with
                       | Some f => PrimFloat.is_zero (PrimFloat.sub f (-1073741824)%float)
                       | None => false
                       end)) in H.
  vm_compute in H. discriminate.
Qed.

(** C9.  For every input with [1 <= k <= n] ([n] an [int]) no function reads
    outside its sequence: [index] is [None] exactly outside [0 .. n-1], and
    every function returns a value, so no access of any function takes that
    branch.  In particular the first loop of [minimumRecolors] reads indices
    [0 .. k-1] and its second loop the indices [r] and [r - k] with
    [0 <= r - k < r < n], and the complement window of [maxScore], of size
    [m = n - k], reads [i] and [i - m] within [0 .. n-1]. *)
Theorem accesses_in_bounds (s : list ascii) (v : list Z) (ks kv threshold : Z) :
  1 ≤ ks ≤ vsize s → vsize s ≤ INT_MAX →
  1 ≤ kv ≤ vsize v → vsize v ≤ INT_MAX →
  (∀ i, index s i = None ↔ ¬ (0 ≤ i < vsize s)) ∧
  (∀ i, index v i = None ↔ ¬ (0 ≤ i < vsize v)) ∧
  is_Some (maxVowels s ks) ∧
  is_Some (Dir1.minimumRecolors s ks) ∧
  is_Some (DirI.minimumRecolors s ks) ∧
  is_Some (numOfSubarrays v kv threshold) ∧
  is_Some (maxScore v kv) ∧
  is_Some (maximumSubarraySum v kv) ∧
  is_Some (findMaxAverage v kv) ∧
  (∀ i, 0 ≤ i < ks → is_Some (index s i)) ∧
  (∀ r, ks ≤ r < wrap32 (vsize s) →
        0 ≤ wrap32 (r - ks) < r ∧ r < vsize s ∧
        is_Some (index s r) ∧ is_Some (index s (wrap32 (r - ks)))) ∧
  (∀ i, wrap32 (wrap32 (vsize v) - kv) ≤ i < wrap32 (vsize v) →
        0 ≤ wrap32 (i - wrap32 (wrap32 (vsize v) - kv)) ≤ i ∧ i < vsize v ∧
        is_Some (index v i) ∧
        is_Some (index v (wrap32 (i - wrap32 (wrap32 (vsize v) - kv))))).
Proof.
  intros Hs Hsn Hv Hvn.
  assert (Hidx : ∀ {A} (u : list A) i, index u i = None ↔ ¬ (0 ≤ i < vsize u)).
  { intros A u i. unfold index, vsize.
    destruct (Z.ltb_spec i 0); [split; [lia|done]|].
    rewrite lookup_ge_None. lia. }
  assert (Hsome : ∀ {A} (u : list A) i, 0 ≤ i < vsize u → is_Some (index u i)).
  { intros A u i Hi. destruct (index u i) eqn:E; [done|].
    apply Hidx in E. lia. }
  split; [apply Hidx|]. split; [apply Hidx|].
  split; [by rewrite maxVowels_refines|].
  split; [by rewrite minimumRecolors_W|].
  split; [change (is_Some (Dir1.minimumRecolors s ks)); by rewrite minimumRecolors_W|].
  split; [by rewrite numOfSubarrays_refines|].
  split; [by rewrite maxScore_wrapped|].
  split; [by rewrite maximumSubarraySum_refines|].
  split.
  { unfold findMaxAverage. by rewrite findMaxAverage_max_s_wrapped. }
  assert (∀ z, 0 ≤ z ≤ INT_MAX → wrap32 z = z) as Hw.
  { intros z Hz. apply wrap32_id. int_lia. }
  split; [intros i Hi; apply Hsome; lia|]. split.
  - intros r. rewrite (Hw (vsize s)) by (unfold vsize in *; lia). intros Hr.
    rewrite (Hw (r - ks)) by lia.
    split; [lia|]. split; [lia|]. split; apply Hsome; lia.
  - intros i. rewrite (Hw (vsize v)) by (unfold vsize in *; lia).
    rewrite (Hw (vsize v - kv)) by lia. intros Hi.
    rewrite (Hw (i - (vsize v - kv))) by lia.
    split; [lia|]. split; [lia|]. split; apply Hsome; lia.
Qed.

Lemma accesses_in_bounds_witness :
  is_Some (Dir1.minimumRecolors (list_ascii_of_string "WBBWWBBWBW") 7) ∧
  is_Some (maxScore [1; 79; 80; 1; 1; 1; 200; 1] 3).
Proof.
  pose proof (accesses_in_bounds (list_ascii_of_string "WBBWWBBWBW")
                [1; 79; 80; 1; 1; 1; 200; 1] 7 3 0) as H.
  destruct H as (_ & _ & _ & H1 & _ & _ & H2 & _).
  - vm_compute. intuition discriminate.
  - vm_compute. discriminate.
  - vm_compute. intuition discriminate.
  - vm_compute. discriminate.
  - split; [exact H1|exact H2].
Defined.

(** C10.  For a vector of [int]s and [1 <= k <= n], [maximumSubarraySum]
    returns a value that is never negative: the answer starts at [0] and only
    grows, so the result is [0] when no window has pairwise distinct elements
    and also when every such window has a negative sum. *)
Theorem maximumSubarraySum_nonneg (nums : list Z) (k : Z) :
  1 ≤ k ≤ vsize nums → vsize nums ≤ INT_MAX → Forall is_int nums →
  ∃ v, maximumSubarraySum nums k = Some v ∧ 0 ≤ v ∧
       (List.filter distinct (windows (Z.to_nat k) nums) = [] → v = 0) ∧
       ((∀ w, w ∈ windows (Z.to_nat k) nums → distinct w = true → sumZ w < 0) →
        v = 0).
Proof.
  intros Hk Hn Hi. eexists. split; [by apply maximumSubarraySum_exact|].
  split; [lia|]. unfold maximumSubarraySum_spec. split.
  - intros ->. done.
  - intros Hneg.
    destruct (List.filter distinct (windows (Z.to_nat k) nums)) as [|w0 ws] eqn:E;
      [done|].
    assert (sumZ <$> w0 :: ws ≠ []) as Hne by done.
    apply maximum_in, list_elem_of_fmap in Hne as (w & Hw & Hin).
    rewrite <- E in Hin. apply list_elem_of_In, List.filter_In in Hin as [Hin Hd].
    apply list_elem_of_In in Hin. specialize (Hneg w Hin Hd). lia.
Qed.

Lemma maximumSubarraySum_nonneg_witness :
  ∃ v, maximumSubarraySum [-1; -2; -3] 2 = Some v ∧ 0 ≤ v ∧
       (List.filter distinct (windows (Z.to_nat 2) [-1; -2; -3]) = [] → v = 0) ∧
       ((∀ w, w ∈ windows (Z.to_nat 2) [-1; -2; -3] → distinct w = true → sumZ w < 0) →
        v = 0).
Proof.
  apply (maximumSubarraySum_nonneg [-1; -2; -3] 2).
  - vm_compute. intuition discriminate.
  - vm_compute. discriminate.
  - compute_done.
Defined.

(* ===================================================================== *)
(** ** The boundary cases [k = n] and [k = 1] *)
(* ===================================================================== *)

Lemma vsize_pos {A} (l : list A) : l ≠ [] → 1 ≤ vsize l ≤ vsize l.
Proof. destruct l; [done|]. unfold vsize. simpl length. lia. Qed.

Lemma to_nat_vsize {A} (l : list A) : Z.to_nat (vsize l) = length l.
Proof. unfold vsize. lia. Qed.

Lemma sumZ_drop_last (l : list Z) :
  l ≠ [] → sumZ (drop (length l - 1) l) = default 0 (last l).
Proof.
  intros Hl. rewrite last_lookup.
  replace (pred (length l)) with (length l - 1)%nat by lia.
  destruct (lookup_lt_is_Some_2 l (length l - 1)) as [z Hz].
  { destruct l; [done|]. simpl length. lia. }
  rewrite Hz, (drop_S _ _ _ Hz), drop_ge by lia. simpl. lia.
Qed.

Lemma maxScore_spec_1 (l : list Z) :
  l ≠ [] → maxScore_spec l 1 = Z.max (default 0 (head l)) (default 0 (last l)).
Proof.
  intros Hl. unfold maxScore_spec, ends_total.
  change (seq 0 (Z.to_nat 1 + 1)) with [0%nat; 1%nat].
  change (Z.to_nat 1) with 1%nat. cbn [fmap list_fmap maximum fold_left].
  replace (length l - (1 - 0))%nat with (length l - 1)%nat by lia.
  replace (length l - (1 - 1))%nat with (length l) by lia.
  rewrite sumZ_drop_last, drop_ge by done.
  destruct l as [|x l]; [done|]. simpl. lia.
Qed.

Lemma head_last_is_int (l : list Z) :
  Forall is_int l → is_int (Z.max (default 0 (head l)) (default 0 (last l))).
Proof.
  intros Hl.
  assert (is_int (default 0 (head l))) as H1.
  { destruct l as [|x l]; simpl; [by vm_compute|]. by apply Forall_cons in Hl as []. }
  assert (is_int (default 0 (last l))) as H2.
  { destruct (last l) as [z|] eqn:E; simpl; [|by vm_compute].
    rewrite Forall_forall in Hl. apply Hl.
    rewrite last_lookup in E. by eapply list_elem_of_lookup_2. }
  unfold is_int in *. lia.
Qed.

Lemma numOfSubarrays_spec_1 (arr : list Z) threshold :
  numOfSubarrays_spec arr 1 threshold = count_if (λ x, threshold <=? x) arr.
Proof.
  unfold numOfSubarrays_spec, count_if. change (Z.to_nat 1) with 1%nat.
  rewrite windows_1. f_equal.
  induction arr as [|x arr IH]; [done|].
  rewrite fmap_cons. cbn [List.filter].
  rewrite (mean_ge_iff [x] 1) by (simpl; lia).
  replace (1 * threshold <=? sumZ [x]) with (threshold <=? x)
    by (simpl; f_equal; lia).
  destruct (threshold <=? x); simpl; by rewrite IH.
Qed.

(** C8 (as amended).  For non-empty inputs of [int] size: with [k = n] every
    function returns the aggregate of the whole sequence as the answer of the
    single window, and with [k = 1] the result of a scan over the elements.
    Where the code adds in [int] the statement asks that the sums it speaks of
    fit in an [int]: then [maxScore] with [k = n] returns the sum of all cards
    and [findMaxAverage] the sum of the array divided by [n] in double
    precision; [maxVowels] with [k = 1] returns [1] if some character is a
    vowel and [0] otherwise. *)
Theorem boundary_windows (s : list ascii) (v : list Z) (threshold : Z) :
  s ≠ [] → vsize s ≤ INT_MAX →
  v ≠ [] → vsize v ≤ INT_MAX → Forall is_int v → is_int threshold →
  (* k = n *)
  maxVowels s (vsize s) = Some (count_if is_vowel s) ∧
  Dir1.minimumRecolors s (vsize s) = Some (count_if is_W s) ∧
  DirI.minimumRecolors s (vsize s) = Some (count_if is_W s) ∧
  (is_int (sumZ v) → is_int (vsize v * threshold) →
   numOfSubarrays v (vsize v) threshold
   = Some (if Qle_bool (inject_Z threshold) (mean v) then 1 else 0)) ∧
  (is_int (sumZ v) → maxScore v (vsize v) = Some (sumZ v)) ∧
  maximumSubarraySum v (vsize v)
  = Some (if distinct v then Z.max 0 (sumZ v) else 0) ∧
  (is_int (sumZ v) →
   findMaxAverage v (vsize v)
   = Some (PrimFloat.div (to_double (sumZ v)) (to_double (vsize v)))) ∧
  (* k = 1 *)
  maxVowels s 1 = Some (if existsb is_vowel s then 1 else 0) ∧
  Dir1.minimumRecolors s 1 = Some (if forallb is_W s then 1 else 0) ∧
  DirI.minimumRecolors s 1 = Some (if forallb is_W s then 1 else 0) ∧
  numOfSubarrays v 1 threshold = Some (count_if (λ x, threshold <=? x) v) ∧
  (Forall is_int (sumZ <$> windows (length v - 1) v) →
   maxScore v 1 = Some (Z.max (default 0 (head v)) (default 0 (last v)))) ∧
  maximumSubarraySum v 1 = Some (Z.max 0 (maximum v)) ∧
  findMaxAverage v 1
  = Some (PrimFloat.div (to_double (maximum v)) (to_double 1)).
Proof.
  intros Hs Hsn Hv Hvn Hi Ht.
  pose proof (vsize_pos s Hs) as Hs1. pose proof (vsize_pos v Hv) as Hv1.
  assert (Hmr_n : Dir1.minimumRecolors s (vsize s) = Some (count_if is_W s)).
  { rewrite minimumRecolors_W by done. by rewrite to_nat_vsize, windows_whole. }
  assert (Hmr_1 : Dir1.minimumRecolors s 1 = Some (if forallb is_W s then 1 else 0)).
  { rewrite minimumRecolors_W by lia. change (Z.to_nat 1) with 1%nat.
    by rewrite count_if_windows_1, minimum_ind. }
  repeat apply conj.
  - rewrite maxVowels_refines by done. unfold maxVowels_brute.
    by rewrite to_nat_vsize, windows_whole.
  - exact Hmr_n.
  - exact Hmr_n.
  - intros Hsum Hprod. rewrite numOfSubarrays_exact; try done.
    + unfold numOfSubarrays_spec. rewrite to_nat_vsize, windows_whole.
      cbn [List.filter]. by destruct (Qle_bool _ _).
    + rewrite to_nat_vsize, windows_whole. by apply Forall_fmap, Forall_singleton.
  - intros Hsum. rewrite maxScore_wrapped by done.
    rewrite to_nat_vsize, Nat.sub_diag, minimum_zeros, Z.sub_0_r, wrap32_id; [done..|].
    intros y (w & -> & (j & -> & _)%list_elem_of_fmap)%list_elem_of_fmap. done.
  - rewrite maximumSubarraySum_exact by done. unfold maximumSubarraySum_spec.
    rewrite to_nat_vsize, windows_whole. cbn [List.filter].
    destruct (distinct v); simpl; [f_equal; lia|done].
  - intros Hsum. rewrite findMaxAverage_exact; try done.
    + unfold findMaxAverage_spec. by rewrite to_nat_vsize, windows_whole.
    + rewrite to_nat_vsize, windows_whole. by apply Forall_fmap, Forall_singleton.
  - rewrite maxVowels_refines by lia. unfold maxVowels_brute.
    change (Z.to_nat 1) with 1%nat. by rewrite count_if_windows_1, maximum_ind.
  - exact Hmr_1.
  - exact Hmr_1.
  - rewrite numOfSubarrays_exact; try done; try lia.
    + by rewrite numOfSubarrays_spec_1.
    + change (Z.to_nat 1) with 1%nat. by rewrite sumZ_windows_1.
    + by rewrite Z.mul_1_l.
  - intros Hb. rewrite maxScore_exact; try done; try lia.
    + by rewrite maxScore_spec_1.
    + rewrite maxScore_spec_1 by done. by apply head_last_is_int.
  - rewrite maximumSubarraySum_exact by (done || lia).
    unfold maximumSubarraySum_spec. change (Z.to_nat 1) with 1%nat.
    by rewrite filter_distinct_windows_1, sumZ_windows_1.
  - rewrite findMaxAverage_exact; try done; try lia.
    + unfold findMaxAverage_spec. change (Z.to_nat 1) with 1%nat.
      by rewrite sumZ_windows_1.
    + change (Z.to_nat 1) with 1%nat. by rewrite sumZ_windows_1.
Qed.

Lemma boundary_windows_witness :
  maxVowels (list_ascii_of_string "abciiidef") 9
    = Some (count_if is_vowel (list_ascii_of_string "abciiidef")) ∧
  maxScore [1; 12; -5; -6; 50; 3] 6 = Some (sumZ [1; 12; -5; -6; 50; 3]) ∧
  maxVowels (list_ascii_of_string "abciiidef") 1
    = Some (if existsb is_vowel (list_ascii_of_string "abciiidef") then 1 else 0) ∧
  maxScore [1; 12; -5; -6; 50; 3] 1
    = Some (Z.max (default 0 (head [1; 12; -5; -6; 50; 3]))
                  (default 0 (last [1; 12; -5; -6; 50; 3]))).
Proof.
  pose proof (boundary_windows (list_ascii_of_string "abciiidef")
                [1; 12; -5; -6; 50; 3] 4) as H.
  destruct H as (H1 & _ & _ & _ & H5 & _ & _ & H8 & _ & _ & _ & H12 & _).
  - discriminate.
  - vm_compute. discriminate.
  - discriminate.
  - vm_compute. discriminate.
  - compute_done.
  - vm_compute. intuition discriminate.
  - split; [exact H1|]. split; [apply H5; vm_compute; intuition discriminate|].
    split; [exact H8|]. apply H12. compute_done.
Defined.

(** C8 as stated fails: with [k = n] the sum of all cards of [[INT_MAX; 1]] is
    [2^31], which no [int] holds, and [maxScore] returns [INT_MIN]. *)
Lemma maxScore_whole_deck_overflow :
  [2147483647; 1] ≠ [] ∧ Forall is_int [2147483647; 1] ∧
  vsize [2147483647; 1] = 2 ∧
  sumZ [2147483647; 1] = 2147483648 ∧
  maxScore [2147483647; 1] 2 = Some (-2147483648) ∧
  maxScore [2147483647; 1] 2 ≠ Some (sumZ [2147483647; 1]).
Proof.
  split; [done|]. split; [compute_done|]. split; [done|].
  split; [by vm_compute|]. split; by vm_compute.
Qed.

(* ===================================================================== *)
(** * Further properties: inputs outside [1 <= k <= n] *)
(* ===================================================================== *)

(** A loop whose body reads out of bounds at iteration [lo + m], and until
    then either does the same or goes on, returns [None]. *)
Lemma for_range_fails {St} (Inv : nat → St → Prop)
    (body : Z → St → option (ctl St)) (m n lo : nat) (st : St) :
  (m < n)%nat → Inv lo st →
  (∀ i st, (lo ≤ i < lo + m)%nat → Inv i st →
     body (Z.of_nat i) st = None ∨
     ∃ st', body (Z.of_nat i) st = Some (Next st') ∧ Inv (S i) st') →
  (∀ st, Inv (lo + m)%nat st → body (Z.of_nat (lo + m)) st = None) →
  for_range body (Z.of_nat lo) n st = None.
Proof.
  revert n lo st. induction m as [|m IH]; intros n lo st Hn H0 Hstep Hlast.
  - destruct n as [|n]; [lia|]. simpl.
    rewrite Nat.add_0_r in Hlast. by rewrite Hlast.
  - destruct n as [|n]; [lia|]. simpl.
    destruct (Hstep lo st) as [->|(st' & -> & Hi)]; [lia|done|done|].
    replace (Z.of_nat lo + 1) with (Z.of_nat (S lo)) by lia.
    apply IH; [lia|done| |].
    + intros i s Hi'. apply Hstep. lia.
    + intros s. replace (S lo + m)%nat with (lo + S m)%nat by lia. apply Hlast.
Qed.

Lemma index_None_ge {A} (v : list A) (i : Z) : vsize v ≤ i → index v i = None.
Proof.
  intros Hi. unfold index, vsize in *.
  destruct (Z.ltb_spec i 0); [done|]. apply lookup_ge_None. lia.
Qed.

Lemma index_None_neg {A} (v : list A) (i : Z) : i < 0 → index v i = None.
Proof. intros Hi. unfold index. by destruct (Z.ltb_spec i 0); [|lia]. Qed.

Lemma left_index_any (i k : Z) :
  is_int (i - k) → is_int (i - k + 1) →
  wrap32 (wrap32 (i - k) + 1) = i - k + 1.
Proof. intros H1 H2. by rewrite (wrap32_id _ H1), (wrap32_id _ H2). Qed.

(** X1.  When [k] is larger than the length of [s] no window is ever full:
    [maxVowels] reads nothing out of bounds and returns [0]. *)
Theorem maxVowels_window_too_long (s : list ascii) (k : Z) :
  vsize s < k → k ≤ INT_MAX → maxVowels s k = Some 0.
Proof.
  intros Hk Hmax. unfold maxVowels. rewrite trips_0_vsize. unfold vsize in *.
  destruct (for_range_inv_next
              (λ (i : nat) (st : mv_state),
                 mv_ans st = 0 ∧ 0 ≤ mv_yuanyin st ≤ Z.of_nat i)
              (maxVowels_body s k) (length s) 0 (MvState 0 0))
    as (st & E & Ha & _);
    [simpl; lia| |change (Z.of_nat 0) with 0 in E; rewrite E; simpl; by rewrite Ha].
  intros i [a y] [_ Hi] [Ha Hy]. simpl in *. subst a.
  destruct (index_Some s i Hi) as (c & Hc & _).
  unfold maxVowels_body. rewrite Hc. simpl.
  rewrite left_index by (unfold INT_MAX in *; lia).
  destruct (Z.ltb_spec (Z.of_nat i - k + 1) 0); [|lia].
  eexists. split; [done|]. simpl. split; [done|].
  destruct (is_vowel c); [|lia]. rewrite wrap32_id by int_lia. lia.
Qed.

Lemma maxVowels_window_too_long_witness :
  maxVowels (list_ascii_of_string "aeiou") 6 = Some 0.
Proof.
  apply (maxVowels_window_too_long (list_ascii_of_string "aeiou") 6);
    by vm_compute.
Defined.



Lemma count_if_full {A} (p : A → bool) w :
  count_if p w = Z.of_nat (length w) ↔ forallb p w = true.
Proof.
  induction w as [|x w IH]; [done|].
  pose proof (count_if_range p w) as Hr.
  unfold count_if in *. cbn [List.filter forallb].
  destruct (p x); simpl length; simpl andb.
  - rewrite <- IH. lia.
  - split; [lia|done].
Qed.

(** X3.  For [1 <= k <= n] the result of [maxVowels] lies between [0] and
    [k], and it is [k] exactly when some window of length [k] consists of
    vowels only (the case in which the loop breaks early). *)
Theorem maxVowels_range (s : list ascii) (k : Z) :
  1 ≤ k ≤ vsize s → vsize s ≤ INT_MAX →
  ∃ v, maxVowels s k = Some v ∧ 0 ≤ v ≤ k ∧
       (v = k ↔ ∃ w, w ∈ windows (Z.to_nat k) s ∧ forallb is_vowel w = true).
Proof.
  intros Hk Hn. rewrite maxVowels_refines by done. eexists. split; [done|].
  unfold maxVowels_brute, vsize in *.
  set (L := count_if is_vowel <$> windows (Z.to_nat k) s).
  assert (L ≠ []) as Hne by (apply windows_upto_ne; lia).
  assert (Hlen : ∀ w, w ∈ windows (Z.to_nat k) s → Z.of_nat (length w) = k).
  { intros w Hw. rewrite (windows_elem_length _ _ _ Hw); lia. }
  pose proof (maximum_in L Hne) as (w & Hw & Hin)%list_elem_of_fmap.
  pose proof (count_if_range is_vowel w) as Hr. rewrite (Hlen w Hin) in Hr.
  split; [lia|]. split.
  - intros E. exists w. split; [done|]. apply count_if_full.
    rewrite (Hlen w Hin). lia.
  - intros (w' & Hin' & Hall). apply count_if_full in Hall.
    rewrite (Hlen w' Hin') in Hall.
    pose proof (maximum_ge L k) as Hge. rewrite <- Hall in Hge at 1.
    specialize (Hge (list_elem_of_fmap_2 _ _ _ Hin')). lia.
Qed.

Lemma maxVowels_range_witness :
  ∃ v, maxVowels (list_ascii_of_string "abciiidef") 3 = Some v ∧ 0 ≤ v ≤ 3 ∧
       (v = 3 ↔ ∃ w, w ∈ windows (Z.to_nat 3) (list_ascii_of_string "abciiidef")
                     ∧ forallb is_vowel w = true).
Proof.
  apply (maxVowels_range (list_ascii_of_string "abciiidef") 3); by vm_compute.
Defined.



(** X5.  With [k = 0] the first loop of [minimumRecolors] does not run and the
    second admits and evicts the same character [blocks[r]], so the count
    stays [0]: the result is [0] and nothing is read out of bounds. *)
Theorem minimumRecolors_zero_window (blocks : list ascii) :
  vsize blocks ≤ INT_MAX →
  Dir1.minimumRecolors blocks 0 = Some 0 ∧ DirI.minimumRecolors blocks 0 = Some 0.
Proof.
  intros Hn.
  assert (Dir1.minimumRecolors blocks 0 = Some 0) as E; [|by split].
  unfold Dir1.minimumRecolors.
  rewrite (wrap32_id (vsize blocks)) by (unfold vsize in *; int_lia).
  change (trips 0 0) with 0%nat. cbn [for_range]. simpl.
  rewrite trips_0_vsize.
  match goal with |- context [for_range ?b 0 _ _] => set (body := b) end.
  destruct (for_range_inv_next (λ (_ : nat) (st : mr_state), st = MrState 0 0)
              body (length blocks) 0 (MrState 0 0)) as (st & E & ->);
    [done| |change (Z.of_nat 0) with 0 in E; by rewrite E].
  intros i st [_ Hi] ->. simpl in Hi.
  destruct (index_Some blocks i Hi) as (c & Hc & _).
  unfold body. rewrite Hc. simpl.
  rewrite Z.sub_0_r, (wrap32_id (Z.of_nat i)) by (unfold vsize in *; int_lia).
  rewrite Hc. simpl. eexists. split; [done|]. by destruct (is_W c).
Qed.

Lemma minimumRecolors_zero_window_witness :
  Dir1.minimumRecolors (list_ascii_of_string "WBW") 0 = Some 0 ∧
  DirI.minimumRecolors (list_ascii_of_string "WBW") 0 = Some 0.
Proof.
  apply (minimumRecolors_zero_window (list_ascii_of_string "WBW")). by vm_compute.
Defined.

(** X6.  On any string, whatever its characters, [minimumRecolors] (both
    copies) counts only ['W']: for [1 <= k <= n] the result is a number of
    ['W'] that some window has and no window undercuts, it lies between [0]
    and [k], and it is [0] exactly when some window has no ['W']. *)
Theorem minimumRecolors_counts_W (blocks : list ascii) (k : Z) :
  1 ≤ k ≤ vsize blocks → vsize blocks ≤ INT_MAX →
  ∃ v, Dir1.minimumRecolors blocks k = Some v ∧
       DirI.minimumRecolors blocks k = Some v ∧
       (∃ w, w ∈ windows (Z.to_nat k) blocks ∧ count_if is_W w = v) ∧
       (∀ w, w ∈ windows (Z.to_nat k) blocks → v ≤ count_if is_W w) ∧
       0 ≤ v ≤ k ∧
       (v = 0 ↔ ∃ w, w ∈ windows (Z.to_nat k) blocks ∧ existsb is_W w = false).
Proof.
  intros Hk Hn. pose proof (minimumRecolors_W blocks k Hk Hn) as E.
  eexists. split; [exact E|]. split; [exact E|]. unfold vsize in *.
  set (L := count_if is_W <$> windows (Z.to_nat k) blocks).
  assert (L ≠ []) as Hne by (apply windows_upto_ne; lia).
  assert (Hlen : ∀ w, w ∈ windows (Z.to_nat k) blocks → Z.of_nat (length w) = k).
  { intros w Hw. rewrite (windows_elem_length _ _ _ Hw); lia. }
  assert (Hzero : ∀ w : list ascii, count_if is_W w = 0 ↔ existsb is_W w = false).
  { intros w. induction w as [|x w IH]; [done|].
    pose proof (count_if_range is_W w) as Hr.
    unfold count_if in *. cbn [List.filter existsb].
    destruct (is_W x); simpl length; simpl orb; [split; [lia|done]|done]. }
  pose proof (minimum_in L Hne) as (w & Hw & Hin)%list_elem_of_fmap.
  pose proof (count_if_range is_W w) as Hr. rewrite (Hlen w Hin) in Hr.
  assert (Hle : ∀ w', w' ∈ windows (Z.to_nat k) blocks → minimum L ≤ count_if is_W w').
  { intros w' Hin'. apply minimum_le. by apply list_elem_of_fmap_2. }
  split; [by exists w|]. split; [done|]. split; [lia|]. split.
  - intros E0. exists w. split; [done|]. apply Hzero. lia.
  - intros (w' & Hin' & Hno). apply Hzero in Hno.
    specialize (Hle w' Hin'). lia.
Qed.

Lemma minimumRecolors_counts_W_witness :
  ∃ v, Dir1.minimumRecolors (list_ascii_of_string "WXYWW") 3 = Some v ∧
       DirI.minimumRecolors (list_ascii_of_string "WXYWW") 3 = Some v ∧
       (∃ w, w ∈ windows (Z.to_nat 3) (list_ascii_of_string "WXYWW")
             ∧ count_if is_W w = v) ∧
       (∀ w, w ∈ windows (Z.to_nat 3) (list_ascii_of_string "WXYWW")
             → v ≤ count_if is_W w) ∧
       0 ≤ v ≤ 3 ∧
       (v = 0 ↔ ∃ w, w ∈ windows (Z.to_nat 3) (list_ascii_of_string "WXYWW")
                     ∧ existsb is_W w = false).
Proof.
  apply (minimumRecolors_counts_W (list_ascii_of_string "WXYWW") 3); by vm_compute.
Defined.

(** X7.  When [k] is larger than the length of [arr] no window is ever full:
    [numOfSubarrays] reads nothing out of bounds and returns [0], whatever the
    threshold and the elements. *)
Theorem numOfSubarrays_window_too_long (arr : list Z) (k threshold : Z) :
  vsize arr < k → k ≤ INT_MAX → numOfSubarrays arr k threshold = Some 0.
Proof.
  intros Hk Hmax. unfold numOfSubarrays. rewrite trips_0_vsize. unfold vsize in *.
  destruct (for_range_inv_next (λ (_ : nat) (st : nos_state), nos_ans st = 0)
              (numOfSubarrays_body arr k threshold) (length arr) 0 (NosState 0 0))
    as (st & E & Ha);
    [done| |change (Z.of_nat 0) with 0 in E; rewrite E; simpl; by rewrite Ha].
  intros i [a s] [_ Hi] Ha. simpl in *. subst a.
  destruct (index_Some arr i Hi) as (x & Hx & _).
  unfold numOfSubarrays_body. rewrite Hx. simpl.
  rewrite (wrap32_id (k - 1)) by int_lia.
  destruct (Z.ltb_spec (Z.of_nat i) (k - 1)); [|lia]. by eexists.
Qed.

Lemma numOfSubarrays_window_too_long_witness :
  numOfSubarrays [2147483647; 2147483647] 3 0 = Some 0.
Proof.
  apply (numOfSubarrays_window_too_long [2147483647; 2147483647] 3 0); by vm_compute.
Defined.

(** X8.  With [k <= 0] (and [n - k] an [int]) on a non-empty vector, every
    iteration of [numOfSubarrays] evicts [arr[i - k + 1]], an index beyond
    [i]: at the latest the last iteration reads past the end. *)
Theorem numOfSubarrays_nonpositive_window (arr : list Z) (k threshold : Z) :
  arr ≠ [] → k ≤ 0 → vsize arr - k ≤ INT_MAX →
  numOfSubarrays arr k threshold = None.
Proof.
  intros Hne Hk Hn. unfold numOfSubarrays. rewrite trips_0_vsize.
  assert (0 < length arr)%nat as Hlen by (destruct arr; [done|simpl; lia]).
  unfold vsize in *.
  assert (for_range (numOfSubarrays_body arr k threshold) (Z.of_nat 0)
            (length arr) (NosState 0 0) = None) as E;
    [|change (Z.of_nat 0) with 0 in E; by rewrite E].
  apply (for_range_fails (λ _ _, True) _ (length arr - 1)); [lia|done| |].
  - intros i st [_ Hi] _. simpl in Hi.
    destruct (index_Some arr i) as (x & Hx & _); [lia|].
    unfold numOfSubarrays_body. rewrite Hx. simpl.
    rewrite (wrap32_id (k - 1)) by int_lia.
    destruct (Z.ltb_spec (Z.of_nat i) (k - 1)); [lia|].
    match goal with |- context [index arr ?j ≫= _] => destruct (index arr j) end;
      simpl; [right; eexists; by split|by left].
  - intros st _. simpl.
    destruct (index_Some arr (length arr - 1)) as (x & Hx & _); [lia|].
    unfold numOfSubarrays_body. rewrite Hx. simpl.
    rewrite (wrap32_id (k - 1)) by int_lia.
    destruct (Z.ltb_spec (Z.of_nat (length arr - 1)) (k - 1)); [lia|].
    rewrite left_index_any by int_lia.
    rewrite index_None_ge; [done|unfold vsize; lia].
Qed.

Lemma numOfSubarrays_nonpositive_window_witness :
  numOfSubarrays [1; 2; 3] 0 0 = None ∧ numOfSubarrays [1; 2; 3] (-2) 0 = None.
Proof.
  split.
  - apply (numOfSubarrays_nonpositive_window [1; 2; 3] 0 0); by vm_compute.
  - apply (numOfSubarrays_nonpositive_window [1; 2; 3] (-2) 0); by vm_compute.
Defined.

(** X9.  For [1 <= k <= n] the count returned by [numOfSubarrays] lies between
    [0] and the number [n - k + 1] of windows; with the wrap-around [int]
    arithmetic of the embedding this needs no bound on the elements. *)
Theorem numOfSubarrays_range (arr : list Z) (k threshold : Z) :
  1 ≤ k ≤ vsize arr → vsize arr ≤ INT_MAX →
  ∃ c, numOfSubarrays arr k threshold = Some c ∧ 0 ≤ c ≤ vsize arr - k + 1.
Proof.
  intros Hk Hn. rewrite numOfSubarrays_refines by done.
  eexists. split; [done|]. unfold numOfSubarrays_brute.
  match goal with |- context [List.filter ?p ?l] =>
    pose proof (count_filter_le p l) as H end.
  unfold windows in H. rewrite windows_upto_length in H. unfold windows.
  unfold vsize in *. lia.
Qed.

Lemma numOfSubarrays_range_witness :
  ∃ c, numOfSubarrays [2; 2; 2; 2; 5; 5; 5; 8] 3 4 = Some c ∧
       0 ≤ c ≤ vsize [2; 2; 2; 2; 5; 5; 5; 8] - 3 + 1.
Proof.
  apply (numOfSubarrays_range [2; 2; 2; 2; 5; 5; 5; 8] 3 4); by vm_compute.
Defined.

(** X10.  With [k = 0] the complement window of [maxScore] is the whole deck:
    the loop does not run and the result is [total - total = 0]. *)
Theorem maxScore_zero_cards (cardPoints : list Z) :
  vsize cardPoints ≤ INT_MAX → maxScore cardPoints 0 = Some 0.
Proof.
  intros Hn. unfold maxScore.
  rewrite (wrap32_id (vsize cardPoints)) by (unfold vsize in *; int_lia).
  rewrite Z.sub_0_r, (wrap32_id (vsize cardPoints)) by (unfold vsize in *; int_lia).
  unfold vsize. rewrite reduce_prefix by done. simpl.
  replace (trips (Z.of_nat (length cardPoints)) (Z.of_nat (length cardPoints)))
    with 0%nat by (unfold trips; lia).
  simpl. by rewrite Z.sub_diag.
Qed.

Lemma maxScore_zero_cards_witness :
  maxScore [2147483647; 2147483647; 5] 0 = Some 0.
Proof. apply (maxScore_zero_cards [2147483647; 2147483647; 5]). by vm_compute. Defined.

(** X11.  When [k] is larger than the length of [nums] no window is ever full:
    [maximumSubarraySum] reads nothing out of bounds and returns [0]. *)
Theorem maximumSubarraySum_window_too_long (nums : list Z) (k : Z) :
  vsize nums < k → k ≤ INT_MAX → maximumSubarraySum nums k = Some 0.
Proof.
  intros Hk Hmax. unfold maximumSubarraySum. rewrite trips_0_vsize. unfold vsize in *.
  destruct (for_range_inv_next (λ (_ : nat) (st : mss_state), mss_ans st = 0)
              (maximumSubarraySum_body nums k) (length nums) 0 (MssState 0 0 ∅))
    as (st & E & Ha);
    [done| |change (Z.of_nat 0) with 0 in E; rewrite E; simpl; by rewrite Ha].
  intros i [a s cnt] [_ Hi] Ha. simpl in *. subst a.
  destruct (index_Some nums i Hi) as (x & Hx & _).
  unfold maximumSubarraySum_body. rewrite Hx. simpl.
  rewrite left_index by (unfold INT_MAX in *; lia).
  destruct (Z.ltb_spec (Z.of_nat i - k + 1) 0); [|lia]. by eexists.
Qed.

Lemma maximumSubarraySum_window_too_long_witness :
  maximumSubarraySum [1; 2; 3] 4 = Some 0.
Proof. apply (maximumSubarraySum_window_too_long [1; 2; 3] 4); by vm_compute. Defined.

(** X12.  With [k <= 0] (and [n - k] an [int]) on a non-empty vector, every
    iteration of [maximumSubarraySum] evicts [nums[i - k + 1]], an index
    beyond [i]: at the latest the last iteration reads past the end. *)
Theorem maximumSubarraySum_nonpositive_window (nums : list Z) (k : Z) :
  nums ≠ [] → k ≤ 0 → vsize nums - k ≤ INT_MAX →
  maximumSubarraySum nums k = None.
Proof.
  intros Hne Hk Hn. unfold maximumSubarraySum. rewrite trips_0_vsize.
  assert (0 < length nums)%nat as Hlen by (destruct nums; [done|simpl; lia]).
  unfold vsize in *.
  assert (for_range (maximumSubarraySum_body nums k) (Z.of_nat 0)
            (length nums) (MssState 0 0 ∅) = None) as E;
    [|change (Z.of_nat 0) with 0 in E; by rewrite E].
  apply (for_range_fails (λ _ _, True) _ (length nums - 1)); [lia|done| |].
  - intros i st [_ Hi] _. simpl in Hi.
    destruct (index_Some nums i) as (x & Hx & _); [lia|].
    unfold maximumSubarraySum_body. rewrite Hx. simpl.
    rewrite left_index_any by int_lia.
    destruct (Z.ltb_spec (Z.of_nat i - k + 1) 0); [lia|].
    match goal with |- context [index nums ?j ≫= _] => destruct (index nums j) end;
      simpl; [right; eexists; by split|by left].
  - intros st _. simpl.
    destruct (index_Some nums (length nums - 1)) as (x & Hx & _); [lia|].
    unfold maximumSubarraySum_body. rewrite Hx. simpl.
    rewrite left_index_any by int_lia.
    destruct (Z.ltb_spec (Z.of_nat (length nums - 1) - k + 1) 0); [lia|].
    rewrite index_None_ge; [done|unfold vsize; lia].
Qed.

Lemma maximumSubarraySum_nonpositive_window_witness :
  maximumSubarraySum [1; 2; 3] 0 = None.
Proof. apply (maximumSubarraySum_nonpositive_window [1; 2; 3] 0); by vm_compute. Defined.

(** X13.  When [k] is larger than the length of [nums] no window is ever
    full: [findMaxAverage] leaves [max_s] at [INT_MIN] and returns
    [INT_MIN / k] in double precision. *)
Theorem findMaxAverage_window_too_long (nums : list Z) (k : Z) :
  vsize nums < k → k ≤ INT_MAX →
  findMaxAverage_max_s nums k = Some INT_MIN ∧
  findMaxAverage nums k = Some (PrimFloat.div (to_double INT_MIN) (to_double k)).
Proof.
  intros Hk Hmax.
  assert (findMaxAverage_max_s nums k = Some INT_MIN) as E.
  { unfold findMaxAverage_max_s. rewrite trips_0_vsize. unfold vsize in *.
    destruct (for_range_inv_next (λ (_ : nat) (st : fma_state), fma_max_s st = INT_MIN)
                (findMaxAverage_body nums k) (length nums) 0 (FmaState INT_MIN 0))
      as (st & E & Ha);
      [done| |change (Z.of_nat 0) with 0 in E; rewrite E; simpl; by rewrite Ha].
    intros i [a s] [_ Hi] Ha. simpl in *. subst a.
    destruct (index_Some nums i Hi) as (x & Hx & _).
    unfold findMaxAverage_body. rewrite Hx. simpl.
    rewrite (wrap32_id (k - 1)) by int_lia.
    destruct (Z.ltb_spec (Z.of_nat i) (k - 1)); [|lia]. by eexists. }
  split; [done|]. unfold findMaxAverage. by rewrite E.
Qed.

Lemma findMaxAverage_window_too_long_witness :
  findMaxAverage_max_s [1; 2; 3] 4 = Some INT_MIN ∧
  findMaxAverage [1; 2; 3] 4 = Some (PrimFloat.div (to_double INT_MIN) (to_double 4)).
Proof. apply (findMaxAverage_window_too_long [1; 2; 3] 4); by vm_compute. Defined.



(* ===================================================================== *)
(** * Further properties: what the results say about the windows *)
(* ===================================================================== *)

Lemma filter_none {A} (p : A → bool) (l : list A) :
  (∀ x, x ∈ l → p x = false) → List.filter p l = [].
Proof.
  induction l as [|x l IH]; intros H; [done|]. cbn [List.filter].
  rewrite (H x) by apply list_elem_of_here.
  apply IH. intros y Hy. by apply H, list_elem_of_further.
Qed.

Lemma distinct_NoDup (w : list Z) : distinct w = true ↔ NoDup w.
Proof. unfold distinct. apply bool_decide_eq_true. Qed.

(** X15.  For a vector of [int]s and [1 <= k <= n], the result of
    [maximumSubarraySum] is at least the sum of every length-[k] window with
    pairwise distinct elements, and a positive result is the sum of such a
    window: the function never reports a positive sum that no qualifying window
    has. *)
Theorem maximumSubarraySum_attained (nums : list Z) (k : Z) :
  1 ≤ k ≤ vsize nums → vsize nums ≤ INT_MAX → Forall is_int nums →
  ∃ v, maximumSubarraySum nums k = Some v ∧
       (∀ w, w ∈ windows (Z.to_nat k) nums → NoDup w → sumZ w ≤ v) ∧
       (0 < v → ∃ w, w ∈ windows (Z.to_nat k) nums ∧ NoDup w ∧ sumZ w = v).
Proof.
  intros Hk Hn Hi. rewrite maximumSubarraySum_exact by done.
  eexists. split; [done|]. unfold maximumSubarraySum_spec.
  set (L := List.filter distinct (windows (Z.to_nat k) nums)). split.
  - intros w Hin Hd.
    assert (sumZ w ∈ sumZ <$> L) as Hs.
    { apply list_elem_of_fmap_2, list_elem_of_In, List.filter_In.
      split; [by apply list_elem_of_In|by apply distinct_NoDup]. }
    apply maximum_ge in Hs. lia.
  - intros Hpos.
    assert (sumZ <$> L ≠ []) as Hne.
    { intros E. rewrite E in Hpos. simpl in Hpos. lia. }
    apply maximum_in, list_elem_of_fmap in Hne as (w & Hw & Hin).
    apply list_elem_of_In, List.filter_In in Hin as [Hin Hd].
    exists w. split; [by apply list_elem_of_In|].
    split; [by apply distinct_NoDup|lia].
Qed.

Lemma maximumSubarraySum_attained_witness :
  ∃ v, maximumSubarraySum [1; 5; 4; 2; 9; 9; 9] 3 = Some v ∧
       (∀ w, w ∈ windows (Z.to_nat 3) [1; 5; 4; 2; 9; 9; 9] → NoDup w → sumZ w ≤ v) ∧
       (0 < v → ∃ w, w ∈ windows (Z.to_nat 3) [1; 5; 4; 2; 9; 9; 9]
                     ∧ NoDup w ∧ sumZ w = v).
Proof.
  apply (maximumSubarraySum_attained [1; 5; 4; 2; 9; 9; 9] 3);
    [by vm_compute|by vm_compute|compute_done].
Defined.

(** X16.  When [nums] holds fewer than [k] different values no window of
    length [k] can have pairwise distinct elements, and [maximumSubarraySum]
    returns [0]. *)
Theorem maximumSubarraySum_few_values (nums : list Z) (k : Z) :
  1 ≤ k ≤ vsize nums → vsize nums ≤ INT_MAX →
  Z.of_nat (size (list_to_set nums : gset Z)) < k →
  maximumSubarraySum nums k = Some 0.
Proof.
  intros Hk Hn Hfew. rewrite maximumSubarraySum_refines by done.
  unfold maximumSubarraySum_brute. rewrite filter_none; [done|].
  intros w Hin. destruct (distinct w) eqn:Hd; [exfalso|done].
  apply distinct_NoDup in Hd. unfold vsize in *.
  destruct (windows_elem _ _ _ Hin ltac:(lia)) as (j & Hj & ->).
  set (w := take (Z.to_nat k) (drop j nums)) in *.
  assert (length w = Z.to_nat k) as Hlen
    by (unfold w; rewrite length_take, length_drop; lia).
  apply size_list_to_set_NoDup in Hd.
  assert ((list_to_set w : gset Z) ⊆ list_to_set nums) as Hsub.
  { intros x. rewrite !elem_of_list_to_set. intros Hx.
    by apply (subseteq_drop j nums), (subseteq_take (Z.to_nat k)). }
  apply subseteq_size in Hsub. lia.
Qed.

Lemma maximumSubarraySum_few_values_witness :
  maximumSubarraySum [7; 8; 7; 8; 7] 3 = Some 0.
Proof.
  apply (maximumSubarraySum_few_values [7; 8; 7; 8; 7] 3); by vm_compute.
Defined.

Lemma count_filter_pos {A} (p : A → bool) (l : list A) :
  0 < Z.of_nat (length (List.filter p l)) ↔ ∃ x, x ∈ l ∧ p x = true.
Proof.
  split.
  - destruct (List.filter p l) as [|x r] eqn:E; [simpl; lia|]. intros _.
    assert (In x (List.filter p l)) as Hin by (rewrite E; by left).
    apply List.filter_In in Hin as [Hin Hp]. exists x.
    split; [by apply list_elem_of_In|done].
  - intros (x & Hin & Hp).
    assert (In x (List.filter p l)) as Hx
      by (apply List.filter_In; split; [by apply list_elem_of_In|done]).
    destruct (List.filter p l); [done|]. simpl. lia.
Qed.

(** X17.  [numOfSubarrays] and the loop of [findMaxAverage] agree, in their
    common [int] arithmetic: for [1 <= k <= n] the count is positive exactly
    when the largest window sum found by [findMaxAverage] is at least
    [k * threshold] as the code computes it. *)
Theorem numOfSubarrays_pos_iff_max (arr : list Z) (k threshold : Z) :
  1 ≤ k ≤ vsize arr → vsize arr ≤ INT_MAX →
  ∃ c max_s, numOfSubarrays arr k threshold = Some c ∧
             findMaxAverage_max_s arr k = Some max_s ∧
             (0 < c ↔ wrap32 (k * threshold) ≤ max_s).
Proof.
  intros Hk Hn. rewrite numOfSubarrays_refines, findMaxAverage_max_s_wrapped by done.
  do 2 eexists. split; [done|]. split; [done|].
  unfold numOfSubarrays_brute. rewrite count_filter_pos.
  set (W := windows (Z.to_nat k) arr).
  assert (sum32 <$> W ≠ []) as Hne by (apply windows_upto_ne; unfold vsize in *; lia).
  split.
  - intros (w & Hin & Hp). apply Z.leb_le in Hp.
    pose proof (maximum_ge (sum32 <$> W) (sum32 w) (list_elem_of_fmap_2 _ _ _ Hin)).
    lia.
  - intros Hle. apply maximum_in, list_elem_of_fmap in Hne as (w & Hw & Hin).
    exists w. split; [done|]. apply Z.leb_le. lia.
Qed.

Lemma numOfSubarrays_pos_iff_max_witness :
  ∃ c max_s, numOfSubarrays [2; 2; 2; 2; 5; 5; 5; 8] 3 4 = Some c ∧
             findMaxAverage_max_s [2; 2; 2; 2; 5; 5; 5; 8] 3 = Some max_s ∧
             (0 < c ↔ wrap32 (3 * 4) ≤ max_s).
Proof.
  apply (numOfSubarrays_pos_iff_max [2; 2; 2; 2; 5; 5; 5; 8] 3 4); by vm_compute.
Defined.

Lemma count_filter_mono {A} (p q : A → bool) (l : list A) :
  (∀ x, p x = true → q x = true) →
  Z.of_nat (length (List.filter p l)) ≤ Z.of_nat (length (List.filter q l)).
Proof.
  intros H. induction l as [|x l IH]; [done|]. cbn [List.filter].
  destruct (p x) eqn:Hp.
  - rewrite (H x Hp). simpl length. lia.
  - destruct (q x); simpl length; lia.
Qed.

(** X18.  For [1 <= k <= n] and two thresholds whose products with [k] fit in
    an [int], raising the threshold never raises the count returned by
    [numOfSubarrays]. *)
Theorem numOfSubarrays_antitone (arr : list Z) (k t1 t2 : Z) :
  1 ≤ k ≤ vsize arr → vsize arr ≤ INT_MAX →
  is_int (k * t1) → is_int (k * t2) → t1 ≤ t2 →
  ∃ c1 c2, numOfSubarrays arr k t1 = Some c1 ∧
           numOfSubarrays arr k t2 = Some c2 ∧ c2 ≤ c1.
Proof.
  intros Hk Hn H1 H2 Ht. rewrite !numOfSubarrays_refines by done.
  do 2 eexists. split; [done|]. split; [done|].
  unfold numOfSubarrays_brute. apply count_filter_mono.
  intros w Hw. apply Z.leb_le in Hw. apply Z.leb_le.
  rewrite (wrap32_id _ H1). rewrite (wrap32_id _ H2) in Hw. nia.
Qed.

Lemma numOfSubarrays_antitone_witness :
  ∃ c1 c2, numOfSubarrays [2; 2; 2; 2; 5; 5; 5; 8] 3 2 = Some c1 ∧
           numOfSubarrays [2; 2; 2; 2; 5; 5; 5; 8] 3 4 = Some c2 ∧ c2 ≤ c1.
Proof.
  apply (numOfSubarrays_antitone [2; 2; 2; 2; 5; 5; 5; 8] 3 2 4); by vm_compute.
Defined.

(* ===================================================================== *)
(** * Further properties: reading the sequence backwards *)
(* ===================================================================== *)

Lemma take_drop_reverse {A} (l : list A) (k j : nat) :
  (j + k ≤ length l)%nat →
  take k (drop j (reverse l)) = reverse (take k (drop (length l - k - j) l)).
Proof.
  intros H. rewrite drop_reverse, take_reverse, length_take. f_equal.
  rewrite skipn_firstn_comm. f_equal; [lia|f_equal; lia].
Qed.

Lemma windows_upto_lookup {A} k (l : list A) c j :
  (j < c)%nat → windows_upto k l c !! j = Some (take k (drop j l)).
Proof.
  intros Hj. unfold windows_upto. by rewrite list_lookup_fmap, lookup_seq_lt.
Qed.

(** The windows of the reversed sequence are the reversed windows, in the
    opposite order. *)
Lemma windows_reverse {A} (k : nat) (l : list A) :
  (k ≤ length l)%nat →
  windows k (reverse l) = reverse (reverse <$> windows k l).
Proof.
  intros Hk. apply list_eq. intros j. unfold windows. rewrite length_reverse.
  set (c := (length l + 1 - k)%nat).
  destruct (decide (j < c)%nat) as [Hj|Hj].
  - rewrite windows_upto_lookup by done.
    rewrite reverse_lookup by (by rewrite length_fmap, windows_upto_length).
    rewrite length_fmap, windows_upto_length, list_lookup_fmap.
    rewrite windows_upto_lookup by lia. simpl. f_equal.
    rewrite take_drop_reverse by (unfold c in *; lia).
    do 3 f_equal. unfold c in *. lia.
  - rewrite !lookup_ge_None_2; [done| |].
    + rewrite length_reverse, length_fmap, windows_upto_length. lia.
    + rewrite windows_upto_length. lia.
Qed.

Lemma maximum_ext (l1 l2 : list Z) :
  (∀ x, x ∈ l1 ↔ x ∈ l2) → maximum l1 = maximum l2.
Proof.
  intros H. destruct l1 as [|a l1].
  - destruct l2 as [|b l2]; [done|].
    exfalso. apply (elem_of_nil b), H, list_elem_of_here.
  - symmetry. apply maximum_unique.
    + apply H, maximum_in. done.
    + intros y Hy. apply maximum_ge, H, Hy.
Qed.

Lemma minimum_ext (l1 l2 : list Z) :
  (∀ x, x ∈ l1 ↔ x ∈ l2) → minimum l1 = minimum l2.
Proof.
  intros H. destruct l1 as [|a l1].
  - destruct l2 as [|b l2]; [done|].
    exfalso. apply (elem_of_nil b), H, list_elem_of_here.
  - symmetry. apply minimum_unique.
    + apply H, minimum_in. done.
    + intros y Hy. apply minimum_le, H, Hy.
Qed.

Lemma maximum_reverse (l : list Z) : maximum (reverse l) = maximum l.
Proof. apply maximum_ext. intros x. apply elem_of_reverse. Qed.

Lemma minimum_reverse (l : list Z) : minimum (reverse l) = minimum l.
Proof. apply minimum_ext. intros x. apply elem_of_reverse. Qed.

Lemma reverse_rev {A} (l : list A) : reverse l = rev l.
Proof. unfold reverse. symmetry. apply rev_alt. Qed.

Lemma filter_reverse {A} (p : A → bool) (l : list A) :
  List.filter p (reverse l) = reverse (List.filter p l).
Proof. rewrite !reverse_rev. apply filter_rev. Qed.

Lemma filter_fmap_reverse {A} (p : list A → bool) (L : list (list A)) :
  (∀ w, p (reverse w) = p w) →
  List.filter p (reverse <$> L) = reverse <$> List.filter p L.
Proof.
  intros H. induction L as [|w L IH]; [done|].
  rewrite fmap_cons. cbn [List.filter]. rewrite H.
  destruct (p w); by rewrite IH.
Qed.

(** An aggregate that does not depend on the direction of a window takes the
    same values on the windows of [reverse l] as on those of [l]. *)
Lemma fmap_windows_reverse {A B} (f : list A → B) (k : nat) (l : list A) :
  (k ≤ length l)%nat → (∀ w, f (reverse w) = f w) →
  f <$> windows k (reverse l) = reverse (f <$> windows k l).
Proof.
  intros Hk Hf. rewrite windows_reverse, fmap_reverse, <- list_fmap_compose by done.
  f_equal. apply list_fmap_ext. intros _ w _. apply Hf.
Qed.

Lemma filter_windows_reverse {A} (p : list A → bool) (k : nat) (l : list A) :
  (k ≤ length l)%nat → (∀ w, p (reverse w) = p w) →
  List.filter p (windows k (reverse l))
  = reverse (reverse <$> List.filter p (windows k l)).
Proof.
  intros Hk Hp. by rewrite windows_reverse, filter_reverse, filter_fmap_reverse.
Qed.

Lemma sumZ_reverse (w : list Z) : sumZ (reverse w) = sumZ w.
Proof.
  induction w as [|x w IH]; [done|].
  rewrite reverse_cons, sumZ_app, IH. simpl. lia.
Qed.

Lemma count_if_reverse {A} (p : A → bool) (w : list A) :
  count_if p (reverse w) = count_if p w.
Proof. unfold count_if. by rewrite filter_reverse, length_reverse. Qed.

Lemma vsize_reverse {A} (l : list A) : vsize (reverse l) = vsize l.
Proof. unfold vsize. by rewrite length_reverse. Qed.

(** X19.  The two string functions do not depend on the direction in which
    the string is read: for [1 <= k <= n], [maxVowels] and [minimumRecolors]
    (both copies) return the same value on the reversed string. *)
Theorem string_windows_reverse (s : list ascii) (k : Z) :
  1 ≤ k ≤ vsize s → vsize s ≤ INT_MAX →
  maxVowels (reverse s) k = maxVowels s k ∧
  Dir1.minimumRecolors (reverse s) k = Dir1.minimumRecolors s k ∧
  DirI.minimumRecolors (reverse s) k = DirI.minimumRecolors s k.
Proof.
  intros Hk Hn.
  assert (Z.to_nat k ≤ length s)%nat as Hkn by (unfold vsize in *; lia).
  assert (Dir1.minimumRecolors (reverse s) k = Dir1.minimumRecolors s k) as E.
  { rewrite !minimumRecolors_W by (by rewrite ?vsize_reverse).
    rewrite fmap_windows_reverse by (done || apply count_if_reverse).
    by rewrite minimum_reverse. }
  split; [|by split].
  rewrite !maxVowels_refines by (by rewrite ?vsize_reverse).
  unfold maxVowels_brute.
  rewrite fmap_windows_reverse by (done || apply count_if_reverse).
  by rewrite maximum_reverse.
Qed.

Lemma string_windows_reverse_witness :
  maxVowels (reverse (list_ascii_of_string "abciiidef")) 3
    = maxVowels (list_ascii_of_string "abciiidef") 3 ∧
  Dir1.minimumRecolors (reverse (list_ascii_of_string "abciiidef")) 3
    = Dir1.minimumRecolors (list_ascii_of_string "abciiidef") 3 ∧
  DirI.minimumRecolors (reverse (list_ascii_of_string "abciiidef")) 3
    = DirI.minimumRecolors (list_ascii_of_string "abciiidef") 3.
Proof.
  apply (string_windows_reverse (list_ascii_of_string "abciiidef") 3); by vm_compute.
Defined.

(** X20.  The four functions on vectors do not depend on the direction in
    which the vector is read: for [1 <= k <= n], [numOfSubarrays], [maxScore],
    [maximumSubarraySum] and [findMaxAverage] return the same value on the
    reversed vector. *)
Theorem vector_windows_reverse (v : list Z) (k threshold : Z) :
  1 ≤ k ≤ vsize v → vsize v ≤ INT_MAX →
  numOfSubarrays (reverse v) k threshold = numOfSubarrays v k threshold ∧
  maxScore (reverse v) k = maxScore v k ∧
  maximumSubarraySum (reverse v) k = maximumSubarraySum v k ∧
  findMaxAverage (reverse v) k = findMaxAverage v k.
Proof.
  intros Hk Hn.
  assert (Z.to_nat k ≤ length v)%nat as Hkn by (unfold vsize in *; lia).
  assert (Hs32 : ∀ w, sum32 (reverse w) = sum32 w)
    by (intros w; by rewrite !sum32_wrap, sumZ_reverse).
  assert (Hs64 : ∀ w, sum64 (reverse w) = sum64 w)
    by (intros w; by rewrite !sum64_wrap, sumZ_reverse).
  split; [|split; [|split]].
  - rewrite !numOfSubarrays_refines by (by rewrite ?vsize_reverse).
    unfold numOfSubarrays_brute.
    rewrite filter_windows_reverse by (done || (intros w; by rewrite Hs32)).
    by rewrite length_reverse, length_fmap.
  - rewrite !maxScore_wrapped by (by rewrite ?vsize_reverse).
    rewrite length_reverse, sumZ_reverse.
    rewrite fmap_windows_reverse by (done || lia).
    by rewrite minimum_reverse.
  - rewrite !maximumSubarraySum_refines by (by rewrite ?vsize_reverse).
    unfold maximumSubarraySum_brute.
    rewrite filter_windows_reverse; [|done|].
    + rewrite fmap_reverse, maximum_reverse, <- list_fmap_compose.
      do 3 f_equal. apply list_fmap_ext. intros _ w _. apply Hs64.
    + intros w. unfold distinct. apply bool_decide_ext.
      by rewrite reverse_Permutation.
  - unfold findMaxAverage.
    rewrite !findMaxAverage_max_s_wrapped by (by rewrite ?vsize_reverse).
    rewrite fmap_windows_reverse by done. by rewrite maximum_reverse.
Qed.

Lemma vector_windows_reverse_witness :
  numOfSubarrays (reverse [1; 12; -5; -6; 50; 3]) 4 3
    = numOfSubarrays [1; 12; -5; -6; 50; 3] 4 3 ∧
  maxScore (reverse [1; 12; -5; -6; 50; 3]) 4 = maxScore [1; 12; -5; -6; 50; 3] 4 ∧
  maximumSubarraySum (reverse [1; 12; -5; -6; 50; 3]) 4
    = maximumSubarraySum [1; 12; -5; -6; 50; 3] 4 ∧
  findMaxAverage (reverse [1; 12; -5; -6; 50; 3]) 4
    = findMaxAverage [1; 12; -5; -6; 50; 3] 4.
Proof.
  apply (vector_windows_reverse [1; 12; -5; -6; 50; 3] 4 3); by vm_compute.
Defined.

(* ===================================================================== *)
(** * Further properties: growing the window by one *)
(* ===================================================================== *)

Lemma wsum_grow_right l k j :
  wsum l (S k) j = wsum l k j + (psum l (S (j + k)) - psum l (j + k)).
Proof. unfold wsum. replace (j + S k)%nat with (S (j + k)) by lia. lia. Qed.

Lemma wsum_grow_left l k j :
  wsum l (S k) j = wsum l k (S j) + (psum l (S j) - psum l j).
Proof. unfold wsum. replace (S j + k)%nat with (j + S k)%nat by lia. lia. Qed.

Lemma psum_ind_step {A} (p : A → bool) (s : list A) i :
  0 ≤ psum (ind p <$> s) (S i) - psum (ind p <$> s) i ≤ 1.
Proof.
  pose proof (psum_ind_range p s i 1) as H.
  by replace (i + 1)%nat with (S i) in H by lia.
Qed.

Lemma elem_of_wsums l k c x :
  x ∈ wsum l k <$> seq 0 c ↔ ∃ j, (j < c)%nat ∧ x = wsum l k j.
Proof.
  rewrite list_elem_of_fmap. split.
  - intros (j & -> & Hj%elem_of_seq). exists j. split; [lia|done].
  - intros (j & Hj & ->). exists j. split; [done|]. apply elem_of_seq. lia.
Qed.

(** The largest and the smallest count of a predicate over the windows of
    length [k + 1], against those over the windows of length [k]. *)
Lemma counts_grow {A} (p : A → bool) (s : list A) (k : nat) :
  (1 ≤ k)%nat → (S k ≤ length s)%nat →
  let M := λ k, maximum (count_if p <$> windows k s) in
  let m := λ k, minimum (count_if p <$> windows k s) in
  M k ≤ M (S k) ≤ M k + 1 ∧ m k ≤ m (S k) ≤ m k + 1.
Proof.
  intros Hk Hn M m. unfold M, m, windows. rewrite !count_if_windows_upto.
  set (vals := ind p <$> s).
  set (c := (length s + 1 - k)%nat). set (c' := (length s + 1 - S k)%nat).
  set (L := wsum vals k <$> seq 0 c). set (L' := wsum vals (S k) <$> seq 0 c').
  assert (c = S c') as Hc by (unfold c, c'; lia).
  assert (L ≠ []) as HL.
  { intros E. apply (f_equal length) in E.
    unfold L in E. rewrite length_fmap, length_seq in E. simpl in E. lia. }
  assert (L' ≠ []) as HL'.
  { intros E. apply (f_equal length) in E.
    unfold L' in E. rewrite length_fmap, length_seq in E. simpl in E.
    unfold c' in E. lia. }
  assert (Hstep : ∀ i, 0 ≤ psum vals (S i) - psum vals i ≤ 1)
    by (intros i; apply psum_ind_step).
  (* every long window extends a short one by one element *)
  assert (Hdown : ∀ x, x ∈ L' → ∃ y, y ∈ L ∧ y ≤ x ≤ y + 1).
  { intros x (j & Hj & ->)%elem_of_wsums. exists (wsum vals k j). split.
    - apply elem_of_wsums. exists j. split; [lia|done].
    - rewrite wsum_grow_right. specialize (Hstep (j + k)%nat). lia. }
  (* every short window is extended by a long one *)
  assert (Hup : ∀ y, y ∈ L → ∃ x, x ∈ L' ∧ y ≤ x ≤ y + 1).
  { intros y (j & Hj & ->)%elem_of_wsums.
    destruct (decide (j < c')%nat) as [Hlt|Hge].
    - exists (wsum vals (S k) j). split.
      + apply elem_of_wsums. by exists j.
      + rewrite wsum_grow_right. specialize (Hstep (j + k)%nat). lia.
    - destruct j as [|j]; [unfold c' in *; lia|].
      exists (wsum vals (S k) j). split.
      + apply elem_of_wsums. exists j. split; [lia|done].
      + rewrite wsum_grow_left. specialize (Hstep j). lia. }
  pose proof (maximum_in L HL) as HML. pose proof (maximum_in L' HL') as HML'.
  pose proof (minimum_in L HL) as HmL. pose proof (minimum_in L' HL') as HmL'.
  destruct (Hup _ HML) as (x1 & Hx1 & ?). destruct (Hdown _ HML') as (y1 & Hy1 & ?).
  destruct (Hup _ HmL) as (x2 & Hx2 & ?). destruct (Hdown _ HmL') as (y2 & Hy2 & ?).
  pose proof (maximum_ge L' x1 Hx1). pose proof (maximum_ge L y1 Hy1).
  pose proof (minimum_le L' x2 Hx2). pose proof (minimum_le L y2 Hy2).
  lia.
Qed.

(** X21.  Asking [maxVowels] for a window one longer never lowers the result
    and raises it by at most one. *)
Theorem maxVowels_grow (s : list ascii) (k : Z) :
  1 ≤ k → k + 1 ≤ vsize s → vsize s ≤ INT_MAX →
  ∃ a b, maxVowels s k = Some a ∧ maxVowels s (k + 1) = Some b ∧ a ≤ b ≤ a + 1.
Proof.
  intros Hk Hk1 Hn. rewrite !maxVowels_refines by lia.
  do 2 eexists. split; [done|]. split; [done|]. unfold maxVowels_brute.
  replace (Z.to_nat (k + 1)) with (S (Z.to_nat k)) by lia.
  apply (counts_grow is_vowel s (Z.to_nat k)); unfold vsize in *; lia.
Qed.

Lemma maxVowels_grow_witness :
  ∃ a b, maxVowels (list_ascii_of_string "abciiidef") 3 = Some a ∧
         maxVowels (list_ascii_of_string "abciiidef") (3 + 1) = Some b ∧
         a ≤ b ≤ a + 1.
Proof.
  apply (maxVowels_grow (list_ascii_of_string "abciiidef") 3); by vm_compute.
Defined.

(** X22.  Asking [minimumRecolors] (either copy) for one more consecutive
    black block never lowers the number of recolourings and raises it by at
    most one. *)
Theorem minimumRecolors_grow (blocks : list ascii) (k : Z) :
  1 ≤ k → k + 1 ≤ vsize blocks → vsize blocks ≤ INT_MAX →
  ∃ a b, Dir1.minimumRecolors blocks k = Some a ∧
         DirI.minimumRecolors blocks k = Some a ∧
         Dir1.minimumRecolors blocks (k + 1) = Some b ∧
         DirI.minimumRecolors blocks (k + 1) = Some b ∧ a ≤ b ≤ a + 1.
Proof.
  intros Hk Hk1 Hn.
  pose proof (minimumRecolors_W blocks k ltac:(lia) Hn) as E1.
  pose proof (minimumRecolors_W blocks (k + 1) ltac:(lia) Hn) as E2.
  do 2 eexists. split; [exact E1|]. split; [exact E1|].
  split; [exact E2|]. split; [exact E2|].
  replace (Z.to_nat (k + 1)) with (S (Z.to_nat k)) by lia.
  apply (counts_grow is_W blocks (Z.to_nat k)); unfold vsize in *; lia.
Qed.

Lemma minimumRecolors_grow_witness :
  ∃ a b, Dir1.minimumRecolors (list_ascii_of_string "WBBWWBBWBW") 6 = Some a ∧
         DirI.minimumRecolors (list_ascii_of_string "WBBWWBBWBW") 6 = Some a ∧
         Dir1.minimumRecolors (list_ascii_of_string "WBBWWBBWBW") (6 + 1) = Some b ∧
         DirI.minimumRecolors (list_ascii_of_string "WBBWWBBWBW") (6 + 1) = Some b ∧
         a ≤ b ≤ a + 1.
Proof.
  apply (minimumRecolors_grow (list_ascii_of_string "WBBWWBBWBW") 6); by vm_compute.
Defined.

Lemma filter_all {A} (p : A → bool) (l : list A) :
  (∀ x, x ∈ l → p x = true) → List.filter p l = l.
Proof.
  induction l as [|x l IH]; intros H; [done|]. cbn [List.filter].
  rewrite (H x) by apply list_elem_of_here. f_equal.
  apply IH. intros y Hy. by apply H, list_elem_of_further.
Qed.

(** X23.  On a vector without repeated values every window qualifies, so
    [maximumSubarraySum] and the loop of [findMaxAverage] find the same sum:
    for [1 <= k <= n], with window sums that fit in an [int],
    [maximumSubarraySum] returns the larger of [0] and the largest window sum
    computed by [findMaxAverage]. *)
Theorem maximumSubarraySum_all_distinct (nums : list Z) (k : Z) :
  1 ≤ k ≤ vsize nums → vsize nums ≤ INT_MAX → Forall is_int nums →
  Forall is_int (sumZ <$> windows (Z.to_nat k) nums) → NoDup nums →
  ∃ max_s, findMaxAverage_max_s nums k = Some max_s ∧
           maximumSubarraySum nums k = Some (Z.max 0 max_s).
Proof.
  intros Hk Hn Hi Hw Hd.
  rewrite findMaxAverage_max_s_wrapped, maximumSubarraySum_exact by done.
  eexists. split; [done|]. rewrite sum32_windows_exact by done.
  unfold maximumSubarraySum_spec. rewrite filter_all; [done|].
  intros w Hin. apply distinct_NoDup. unfold vsize in *.
  destruct (windows_elem _ _ _ Hin ltac:(lia)) as (j & _ & ->).
  eapply sublist_NoDup; [exact Hd|].
  etrans; [apply sublist_take|apply sublist_drop].
Qed.

Lemma maximumSubarraySum_all_distinct_witness :
  ∃ max_s, findMaxAverage_max_s [1; 12; -5; -6; 50; 3] 4 = Some max_s ∧
           maximumSubarraySum [1; 12; -5; -6; 50; 3] 4 = Some (Z.max 0 max_s).
Proof.
  apply (maximumSubarraySum_all_distinct [1; 12; -5; -6; 50; 3] 4);
    [by vm_compute|by vm_compute|compute_done|compute_done|].
  apply (bool_decide_unpack _). by vm_compute.
Defined.

(** X24.  For [1 <= k <= n], when block sums and the best total fit in an
    [int], the result of [maxScore] is the total of some split of the [k]
    cards between the two ends, and it is at least the sum of the first [k]
    cards and at least the sum of the last [k] cards. *)
Theorem maxScore_bounds (cardPoints : list Z) (k : Z) :
  1 ≤ k ≤ vsize cardPoints → vsize cardPoints ≤ INT_MAX →
  Forall is_int (sumZ <$> windows (length cardPoints - Z.to_nat k) cardPoints) →
  is_int (maxScore_spec cardPoints k) →
  ∃ v, maxScore cardPoints k = Some v ∧
       sumZ (take (Z.to_nat k) cardPoints) ≤ v ∧
       sumZ (drop (length cardPoints - Z.to_nat k) cardPoints) ≤ v ∧
       ∃ j, (j ≤ Z.to_nat k)%nat ∧ v = ends_total cardPoints (Z.to_nat k) j.
Proof.
  intros Hk Hn Hb Hr. rewrite maxScore_exact by done.
  eexists. split; [done|]. unfold maxScore_spec.
  set (kn := Z.to_nat k).
  set (L := ends_total cardPoints kn <$> seq 0 (kn + 1)).
  assert (∀ j, (j ≤ kn)%nat → ends_total cardPoints kn j ∈ L) as Hin.
  { intros j Hj. apply list_elem_of_fmap_2, elem_of_seq. lia. }
  split; [|split].
  - pose proof (maximum_ge L _ (Hin kn ltac:(lia))) as H.
    unfold ends_total in H. rewrite Nat.sub_diag, Nat.sub_0_r, drop_all in H.
    simpl in H. lia.
  - pose proof (maximum_ge L _ (Hin 0%nat ltac:(lia))) as H.
    unfold ends_total in H. rewrite Nat.sub_0_r in H. simpl in H. lia.
  - assert (L ≠ []) as Hne.
    { intros E. apply (f_equal length) in E.
      unfold L in E. rewrite length_fmap, length_seq in E. simpl in E. lia. }
    apply maximum_in, list_elem_of_fmap in Hne as (j & Hj & Hs%elem_of_seq).
    exists j. split; [lia|done].
Qed.

Lemma maxScore_bounds_witness :
  ∃ v, maxScore [1; 79; 80; 1; 1; 1; 200; 1] 3 = Some v ∧
       sumZ (take (Z.to_nat 3) [1; 79; 80; 1; 1; 1; 200; 1]) ≤ v ∧
       sumZ (drop (length [1; 79; 80; 1; 1; 1; 200; 1] - Z.to_nat 3)
                  [1; 79; 80; 1; 1; 1; 200; 1]) ≤ v ∧
       ∃ j, (j ≤ Z.to_nat 3)%nat ∧
            v = ends_total [1; 79; 80; 1; 1; 1; 200; 1] (Z.to_nat 3) j.
Proof.
  apply (maxScore_bounds [1; 79; 80; 1; 1; 1; 200; 1] 3);
    [by vm_compute|by vm_compute|compute_done|by vm_compute].
Defined.
